(** * git-sexp: S-expressions in a content-addressed object store

    A shallow embedding of the git-sexp module (atoms as blobs, cons cells
    as two-entry trees named "car"/"cdr", the empty list as the empty tree,
    snapshots as commits on the branch "history") and the properties its
    specification states.

    Modelling conventions.
    - A JS string is the sequence of its UTF-16 code units ([JsString]).
      [Buffer.from(str)] encodes it in UTF-8, every unpaired surrogate
      becoming U+FFFD; [buffer.toString()] decodes UTF-8, every ill-formed
      byte sequence becoming U+FFFD.  The strings the store itself works
      with (ids, entry names, branch names, configuration) are Rocq
      [string]s.
    - An object id is a [string], as in the source.  The hash of the object
      store is the operational class [Hasher]; theorems that need
      content addressing assume it injective, with the empty tree hashed to
      the literal id of [GitSexpEmptyValue].
    - The object store is a finite map from ids to objects, written once
      per id.  Operations of isomorphic-git sit in the [git_] definitions.
    - [async] functions that recurse over the store take a fuel argument;
      running out of fuel is [None], a thrown error is [Throw]. *)

From Stdlib Require Import ZArith Ascii String.
From stdpp Require Import gmap strings list fin_maps pretty relations sorting.

Local Open Scope string_scope.
Local Open Scope list_scope.

(** ** Errors and results *)

(** The error kinds of the specification.  The source throws plain
    [Error]s: the one of [consListToStringArray] is [NotAProperList], those
    of [readGitSexpAtom] and [readGitSexpConsLazy] are [InvalidObject], the
    unreachable ones of the codec would be [MalformedExpression].  The
    store's own errors are [NotFound] (an absent object), [LineNotFound]
    (an absent branch), [ObjectTypeError] and [MissingName]. *)
Inductive Error :=
| NotFound
| InvalidObject
| MalformedExpression
| NotAProperList
| LineNotFound
| ObjectTypeError
| MissingName.

Inductive Result (A : Type) :=
| Ok (a : A)
| Throw (e : Error).
Arguments Ok {A} a.
Arguments Throw {A} e.

Definition bindR {A B} (r : Result A) (k : A → Result B) : Result B :=
  match r with
  | Ok a => k a
  | Throw e => Throw e
  end.

Notation "'let*' x := e 'in' k" := (bindR e (λ x, k))
  (at level 10, x pattern, e at level 100, k at level 200).

(** A computation that may run out of fuel. *)
Definition Fueled (A : Type) : Type := option (Result A).

Definition bindF {A B} (r : Fueled A) (k : A → Fueled B) : Fueled B :=
  match r with
  | Some (Ok a) => k a
  | Some (Throw e) => Some (Throw e)
  | None => None
  end.

Notation "'await*' x := e 'in' k" := (bindF e (λ x, k))
  (at level 10, x pattern, e at level 100, k at level 200).

(** ** JS strings and their bytes *)

(** A UTF-16 code unit is a number below [2^16]; a JS string is the
    sequence of its code units.  A number from [2^16] on stands for no code
    unit: the functions below treat it as ill formed. *)
Definition CodeUnit : Type := N.
Definition JsString : Type := list CodeUnit.

(** The JS string of an ASCII literal. *)
Definition js (s : string) : JsString := map Byte.to_N (list_byte_of_string s).

Definition REPLACEMENT_CHARACTER : N := 0xFFFD%N.

Definition isLeadingSurrogate (u : N) : bool := ((0xD800 <=? u) && (u <=? 0xDBFF))%N.
Definition isTrailingSurrogate (u : N) : bool := ((0xDC00 <=? u) && (u <=? 0xDFFF))%N.

Definition UTF16SurrogatePairToCodePoint (lead trail : N) : N :=
  ((lead - 0xD800) * 0x400 + (trail - 0xDC00) + 0x10000)%N.

Definition UTF16EncodeCodePoint (c : N) : JsString :=
  if (c <=? 0xFFFF)%N then [c]
  else [((c - 0x10000) / 0x400 + 0xD800)%N; ((c - 0x10000) mod 0x400 + 0xDC00)%N].

(** The code points of a string as an encoder reads them: a leading
    surrogate followed by a trailing one is one code point, any other
    surrogate is replaced by U+FFFD. *)
Fixpoint codePoints (s : JsString) : list N :=
  match s with
  | [] => []
  | u :: s' =>
      if isLeadingSurrogate u then
        match s' with
        | t :: s'' =>
            if isTrailingSurrogate t
            then UTF16SurrogatePairToCodePoint u t :: codePoints s''
            else REPLACEMENT_CHARACTER :: codePoints s'
        | [] => [REPLACEMENT_CHARACTER]
        end
      else if isTrailingSurrogate u || (0xFFFF <? u)%N
      then REPLACEMENT_CHARACTER :: codePoints s'
      else u :: codePoints s'
  end.

(** [String.prototype.toWellFormed] and [String.prototype.isWellFormed]. *)
Definition toWellFormed (s : JsString) : JsString :=
  flat_map UTF16EncodeCodePoint (codePoints s).

Fixpoint isWellFormed (s : JsString) : bool :=
  match s with
  | [] => true
  | u :: s' =>
      if isLeadingSurrogate u then
        match s' with
        | t :: s'' => isTrailingSurrogate t && isWellFormed s''
        | [] => false
        end
      else negb (isTrailingSurrogate u) && (u <=? 0xFFFF)%N && isWellFormed s'
  end.

Definition byte_of (n : N) : Byte.byte := default Byte.x00 (Byte.of_N n).

(** The UTF-8 bytes of one code point. *)
Definition utf8_encode (c : N) : list Byte.byte :=
  (if c <=? 0x7F then [byte_of c]
   else if c <=? 0x7FF then [byte_of (0xC0 + c / 0x40); byte_of (0x80 + c mod 0x40)]
   else if c <=? 0xFFFF then
     [byte_of (0xE0 + c / 0x1000); byte_of (0x80 + (c / 0x40) mod 0x40);
      byte_of (0x80 + c mod 0x40)]
   else
     [byte_of (0xF0 + c / 0x40000); byte_of (0x80 + (c / 0x1000) mod 0x40);
      byte_of (0x80 + (c / 0x40) mod 0x40); byte_of (0x80 + c mod 0x40)])%N.

(** The UTF-8 decoder: the code point under construction, the number of
    continuation bytes still needed, and the bounds the next byte has to
    lie in. *)
Record Utf8State := {
  utf8_codePoint : N;
  utf8_needed : N;
  utf8_lower : N;
  utf8_upper : N
}.

(** A byte met between two characters. *)
Definition utf8_start (x : N) : list N * option Utf8State :=
  (if x <=? 0x7F then ([x], None)
   else if (0xC2 <=? x) && (x <=? 0xDF) then
     ([], Some {| utf8_codePoint := x - 0xC0; utf8_needed := 1;
                  utf8_lower := 0x80; utf8_upper := 0xBF |})
   else if (0xE0 <=? x) && (x <=? 0xEF) then
     ([], Some {| utf8_codePoint := x - 0xE0; utf8_needed := 2;
                  utf8_lower := if x =? 0xE0 then 0xA0 else 0x80;
                  utf8_upper := if x =? 0xED then 0x9F else 0xBF |})
   else if (0xF0 <=? x) && (x <=? 0xF4) then
     ([], Some {| utf8_codePoint := x - 0xF0; utf8_needed := 3;
                  utf8_lower := if x =? 0xF0 then 0x90 else 0x80;
                  utf8_upper := if x =? 0xF4 then 0x8F else 0xBF |})
   else ([REPLACEMENT_CHARACTER], None))%N.

(** One byte: a continuation byte within the bounds extends the code
    point; any other byte ends the sequence with U+FFFD and is then read as
    a byte between two characters. *)
Definition utf8_step (st : option Utf8State) (x : N) : list N * option Utf8State :=
  match st with
  | None => utf8_start x
  | Some st =>
      if ((utf8_lower st <=? x) && (x <=? utf8_upper st))%N then
        let c := (utf8_codePoint st * 0x40 + (x - 0x80))%N in
        if (utf8_needed st =? 1)%N then ([c], None)
        else ([], Some {| utf8_codePoint := c; utf8_needed := utf8_needed st - 1;
                          utf8_lower := 0x80; utf8_upper := 0xBF |})
      else
        let '(out, st') := utf8_start x in (REPLACEMENT_CHARACTER :: out, st')
  end.

(** A sequence cut short by the end of the bytes gives U+FFFD. *)
Fixpoint utf8_decode (st : option Utf8State) (bs : list Byte.byte) : list N :=
  match bs with
  | [] => match st with None => [] | Some _ => [REPLACEMENT_CHARACTER] end
  | x :: bs' =>
      let '(out, st') := utf8_step st (Byte.to_N x) in
      out ++ utf8_decode st' bs'
  end.

(** [Buffer.from(str)] and [buffer.toString()], both with the default
    encoding, UTF-8. *)
Definition Buffer_from (str : JsString) : list Byte.byte :=
  flat_map utf8_encode (codePoints str).

Definition Buffer_toString (b : list Byte.byte) : JsString :=
  flat_map UTF16EncodeCodePoint (utf8_decode None b).

(** A Unicode scalar value: a code point that is no surrogate. *)
Definition scalar (c : N) : Prop := (c < 0xD800 ∨ 0xE000 ≤ c ∧ c < 0x110000)%N.

(** The states from which the decoder can only complete a scalar value. *)
Definition utf8_state_ok (st : option Utf8State) : Prop :=
  match st with
  | None => True
  | Some st =>
      let c := utf8_codePoint st in
      let lo := utf8_lower st in
      let hi := utf8_upper st in
      (0x80 ≤ lo ∧ hi ≤ 0xBF)%N
      ∧ ((utf8_needed st = 1
          ∧ (c * 0x40 + hi - 0x80 < 0xD800
             ∨ 0xE000 ≤ c * 0x40 + lo - 0x80 ∧ c * 0x40 + hi - 0x80 < 0x110000))
         ∨ (utf8_needed st = 2
            ∧ ((c * 0x40 + hi - 0x80) * 0x40 + 0x3F < 0xD800
               ∨ 0xE000 ≤ (c * 0x40 + lo - 0x80) * 0x40
                 ∧ (c * 0x40 + hi - 0x80) * 0x40 + 0x3F < 0x110000))
         ∨ (utf8_needed st = 3
            ∧ 0xE000 ≤ (c * 0x40 + lo - 0x80) * 0x1000
            ∧ (c * 0x40 + hi - 0x80) * 0x1000 + 0xFFF < 0x110000))%N
  end.

(** ** The in-memory values *)

Definition Oid : Type := string.

(** [GitSexpExpression = GitSexpAtom | GitSexpCons | GitSexpEmpty]. *)
Inductive GitSexpExpression :=
| GitSexpEmpty
| GitSexpAtom (value : JsString) (oid : Oid)
| GitSexpCons (car cdr : GitSexpExpression) (oid : Oid).

(** [GitSexpExpressionLazy]: children known by id and kind only. *)
Inductive GitSexpExpressionLazy :=
| GitSexpEmptyLazy
| GitSexpAtomLazy (oid : Oid)
| GitSexpConsLazyRef (oid : Oid).

Record GitSexpConsLazy := {
  lazy_car : option GitSexpExpressionLazy;
  lazy_cdr : option GitSexpExpressionLazy;
  lazy_oid : Oid
}.

Definition GitSexpEmptyValue_oid : Oid := "4b825dc642cb6eb9a060e54bf8d69288fbee4904".

Definition oid_of (sexp : GitSexpExpression) : Oid :=
  match sexp with
  | GitSexpEmpty => GitSexpEmptyValue_oid
  | GitSexpAtom _ oid => oid
  | GitSexpCons _ _ oid => oid
  end.

Definition oid_of_lazy (sexp : GitSexpExpressionLazy) : Oid :=
  match sexp with
  | GitSexpEmptyLazy => GitSexpEmptyValue_oid
  | GitSexpAtomLazy oid => oid
  | GitSexpConsLazyRef oid => oid
  end.

(** [JsSexp = null | string | [JsSexp, JsSexp]]. *)
Inductive JsSexp :=
| JsEmptySexp
| JsAtom (s : JsString)
| JsCons (car cdr : JsSexp).

Definition HISTORY_BRANCH : string := "history".

Definition isJsAtom (sexp : JsSexp) : bool :=
  match sexp with JsAtom _ => true | _ => false end.

Definition isJsCons (sexp : JsSexp) : bool :=
  match sexp with JsCons _ _ => true | _ => false end.

Definition isJsEmptySexp (sexp : JsSexp) : bool :=
  match sexp with JsEmptySexp => true | _ => false end.

(** ** List builder *)

(** JS arrays are heap objects: an array reference and the heap that holds
    its current elements. *)
Definition ArrayRef : Type := positive.
Abbreviation ArrayHeap := (gmap positive (list JsString)).

(** [strings.reverse()] reverses the array in place and returns the same
    array; [reduce] then folds it from the left.  The result is the cons
    list together with the heap after the call; [None] is a dangling
    reference, which a typed caller never passes. *)
Definition stringArrayToConsList (strings : ArrayRef) (h : ArrayHeap)
  : option (JsSexp * ArrayHeap) :=
  match h !! strings with
  | None => None
  | Some elems =>
      let reversed := rev elems in
      Some (fold_left (λ (list : JsSexp) (str : JsString), JsCons (JsAtom str) list)
                      reversed JsEmptySexp,
            <[strings := reversed]> h)
  end.

Fixpoint consListToStringArray (sexp : JsSexp) : Result (list JsString) :=
  match sexp with
  | JsEmptySexp => Ok []
  | JsAtom s => Ok [s]
  | JsCons (JsAtom car) cdr =>
      let* rest := consListToStringArray cdr in
      Ok (car :: rest)
  | JsCons _ _ => Throw NotAProperList
  end.

(** ** Specification-side notions for lists *)

(** A proper list: every car an atom, the chain ends in the empty
    expression. *)
Inductive ProperList : JsSexp → list JsString → Prop :=
| proper_nil : ProperList JsEmptySexp []
| proper_cons s cdr l : ProperList cdr l → ProperList (JsCons (JsAtom s) cdr) (s :: l).

(** The chain walked by [consListToStringArray]: the cars met along the cdr
    spine, and the terminal that is not a pair. *)
Definition chain (cars : list JsSexp) (terminal : JsSexp) : JsSexp :=
  foldr JsCons terminal cars.

Definition payload (sexp : JsSexp) : list JsString :=
  match sexp with JsAtom s => [s] | _ => [] end.

Definition payloads (cars : list JsSexp) : list JsString :=
  concat (map payload cars).

(** ** The object store (isomorphic-git) *)

Inductive ObjectType := blob | tree | commit.

Record TreeEntry := {
  entry_mode : string;
  entry_path : string;
  entry_oid : Oid;
  entry_type : ObjectType
}.

(** A commit: the snapshot tree, the parents, the author taken from the
    configuration ([user.name], [user.email]), the time of the call and the
    message. *)
Record CommitObject := {
  commit_tree : Oid;
  commit_parent : list Oid;
  commit_author : string * string;
  commit_timestamp : Z;
  commit_message : string
}.

Inductive GitObject :=
| Blob (content : list Byte.byte)
| Tree (entries : list TreeEntry)
| Commit (c : CommitObject).

(** The content hash of the store ([git hash-object]). *)
Class Hasher := hash : GitObject → Oid.

(** [GitTree] keeps its entries sorted by path, on writing and on
    parsing. *)
Fixpoint insertEntry (e : TreeEntry) (l : list TreeEntry) : list TreeEntry :=
  match l with
  | [] => [e]
  | x :: l' =>
      if String.leb (entry_path e) (entry_path x) then e :: l
      else x :: insertEntry e l'
  end.

Definition sortEntries (l : list TreeEntry) : list TreeEntry :=
  foldr insertEntry [] l.

Inductive ObjectFormat := content | parsed | deflated | wrapped.

Record ReadObjectResult := {
  ro_type : ObjectType;
  ro_format : ObjectFormat;
  ro_object : GitObject
}.

(** The tree listing carried by a parsed tree result. *)
Definition ro_tree (objectInfo : ReadObjectResult) : list TreeEntry :=
  match ro_object objectInfo with
  | Tree es => es
  | _ => []
  end.

Section Store.
Context `{Hasher}.

(** Loose objects are written once: an id already present is left as it
    is. *)
Definition writeObject (obj : GitObject) (objs : gmap Oid GitObject)
  : Oid * gmap Oid GitObject :=
  let oid := hash obj in
  (oid, match objs !! oid with
        | Some _ => objs
        | None => <[oid := obj]> objs
        end).

Definition git_writeBlob (b : list Byte.byte) (objs : gmap Oid GitObject)
  : Oid * gmap Oid GitObject :=
  writeObject (Blob b) objs.

Definition git_writeTree (t : list TreeEntry) (objs : gmap Oid GitObject)
  : Oid * gmap Oid GitObject :=
  writeObject (Tree (sortEntries t)) objs.
End Store.

(** [git.readObject] with its default format: a blob comes back as
    [content], a tree or a commit [parsed].  The empty tree is built in. *)
Definition git_readObject (objs : gmap Oid GitObject) (oid : Oid)
  : Result ReadObjectResult :=
  if decide (oid = GitSexpEmptyValue_oid) then
    Ok {| ro_type := tree; ro_format := parsed; ro_object := Tree [] |}
  else
    match objs !! oid with
    | None => Throw NotFound
    | Some (Blob b) =>
        Ok {| ro_type := blob; ro_format := content; ro_object := Blob b |}
    | Some (Tree es) =>
        Ok {| ro_type := tree; ro_format := parsed; ro_object := Tree (sortEntries es) |}
    | Some (Commit c) =>
        Ok {| ro_type := commit; ro_format := parsed; ro_object := Commit c |}
    end.

(** [git.readTree]: commits are peeled to their tree. *)
Fixpoint git_readTree (fuel : nat) (objs : gmap Oid GitObject) (oid : Oid)
  : Fueled (list TreeEntry) :=
  match fuel with
  | 0 => None
  | S fuel' =>
      if decide (oid = GitSexpEmptyValue_oid) then Some (Ok [])
      else
        match objs !! oid with
        | None => Some (Throw NotFound)
        | Some (Blob _) => Some (Throw ObjectTypeError)
        | Some (Tree es) => Some (Ok (sortEntries es))
        | Some (Commit c) => git_readTree fuel' objs (commit_tree c)
        end
  end.

(** ** Sexp codec and lazy tree reader *)

Definition ObjectType_eqb (a b : ObjectType) : bool :=
  match a, b with
  | blob, blob | tree, tree | commit, commit => true
  | _, _ => false
  end.

Definition ObjectFormat_eqb (a b : ObjectFormat) : bool :=
  match a, b with
  | content, content | parsed, parsed | deflated, deflated | wrapped, wrapped => true
  | _, _ => false
  end.

Definition isValidGitSexpAtomObject (objectInfo : ReadObjectResult) : bool :=
  ObjectType_eqb (ro_type objectInfo) blob
  && (ObjectFormat_eqb (ro_format objectInfo) content
      || ObjectFormat_eqb (ro_format objectInfo) parsed).

Definition isValidGitSexpConsObject (objectInfo : ReadObjectResult)
    (t : list TreeEntry) : bool :=
  if negb (ObjectType_eqb (ro_type objectInfo) tree)
     || (negb (ObjectFormat_eqb (ro_format objectInfo) content)
         && negb (ObjectFormat_eqb (ro_format objectInfo) parsed))
  then false
  else if negb (length t =? 2)%nat then false
  else
    let hasCar := existsb (λ entry, String.eqb (entry_path entry) "car") t in
    let hasCdr := existsb (λ entry, String.eqb (entry_path entry) "cdr") t in
    hasCar && hasCdr.

Definition getTypeAndMode (sexp : GitSexpExpression) : ObjectType * string :=
  match sexp with
  | GitSexpEmpty => (tree, "040000")
  | GitSexpAtom _ _ => (blob, "100644")
  | GitSexpCons _ _ _ => (tree, "040000")
  end.

(** The two entries [writeGitSexpCons] hands to [git.writeTree]. *)
Definition consTree (car cdr : GitSexpExpression) : list TreeEntry :=
  [ {| entry_mode := snd (getTypeAndMode car); entry_path := "car";
       entry_oid := oid_of car; entry_type := fst (getTypeAndMode car) |};
    {| entry_mode := snd (getTypeAndMode cdr); entry_path := "cdr";
       entry_oid := oid_of cdr; entry_type := fst (getTypeAndMode cdr) |} ].

Section Codec.
Context `{Hasher}.

Definition writeGitSexpAtom (str : JsString) (objs : gmap Oid GitObject)
  : GitSexpExpression * gmap Oid GitObject :=
  let '(oid, objs') := git_writeBlob (Buffer_from str) objs in
  (GitSexpAtom str oid, objs').

Definition writeGitSexpCons (car cdr : GitSexpExpression)
    (objs : gmap Oid GitObject) : GitSexpExpression * gmap Oid GitObject :=
  let '(consOid, objs') := git_writeTree (consTree car cdr) objs in
  (GitSexpCons car cdr consOid, objs').

Fixpoint jsSexpToGitSexp (value : JsSexp) (objs : gmap Oid GitObject)
  : GitSexpExpression * gmap Oid GitObject :=
  match value with
  | JsEmptySexp => (GitSexpEmpty, objs)
  | JsAtom s => writeGitSexpAtom s objs
  | JsCons v0 v1 =>
      let '(car, objs1) := jsSexpToGitSexp v0 objs in
      let '(cdr, objs2) := jsSexpToGitSexp v1 objs1 in
      writeGitSexpCons car cdr objs2
  end.

Definition consStringOntoGitSexpExpression (str : JsString)
    (sexp : GitSexpExpression) (objs : gmap Oid GitObject)
  : GitSexpExpression * gmap Oid GitObject :=
  let '(atom, objs1) := writeGitSexpAtom str objs in
  writeGitSexpCons atom sexp objs1.
End Codec.

(** The [else] branch of the source ("should never happen") is excluded by
    the three constructors of [GitSexpExpression]. *)
Fixpoint gitSexpToJsSexp (sexp : GitSexpExpression) : JsSexp :=
  match sexp with
  | GitSexpEmpty => JsEmptySexp
  | GitSexpAtom value _ => JsAtom value
  | GitSexpCons car cdr _ => JsCons (gitSexpToJsSexp car) (gitSexpToJsSexp cdr)
  end.

Definition isGitSexpAtomOid (objs : gmap Oid GitObject) (oid : Oid) : bool :=
  match git_readObject objs oid with
  | Ok objectInfo => isValidGitSexpAtomObject objectInfo
  | Throw _ => false
  end.

Definition readGitSexpAtom (objs : gmap Oid GitObject) (oid : Oid)
  : Result GitSexpExpression :=
  let* objectInfo := git_readObject objs oid in
  if isValidGitSexpAtomObject objectInfo then
    match ro_object objectInfo with
    | Blob b => Ok (GitSexpAtom (Buffer_toString b) oid)
    | _ => Throw InvalidObject
    end
  else Throw InvalidObject.

Definition lazyOfEntry (entry : TreeEntry) : GitSexpExpressionLazy :=
  if decide (entry_oid entry = GitSexpEmptyValue_oid) then GitSexpEmptyLazy
  else if ObjectType_eqb (entry_type entry) blob then GitSexpAtomLazy (entry_oid entry)
  else GitSexpConsLazyRef (entry_oid entry).

Definition readGitSexpConsLazy (fuel : nat) (objs : gmap Oid GitObject) (oid : Oid)
  : Fueled GitSexpConsLazy :=
  await* objectInfo := Some (git_readObject objs oid) in
  await* t :=
    (if ObjectFormat_eqb (ro_format objectInfo) parsed
        && ObjectType_eqb (ro_type objectInfo) tree
     then Some (Ok (ro_tree objectInfo))
     else git_readTree fuel objs oid) in
  if negb (isValidGitSexpConsObject objectInfo t) then Some (Throw InvalidObject)
  else
    match find (λ entry, String.eqb (entry_path entry) "car") t,
          find (λ entry, String.eqb (entry_path entry) "cdr") t with
    | Some carEntry, Some cdrEntry =>
        Some (Ok {| lazy_car := Some (lazyOfEntry carEntry);
                    lazy_cdr := Some (lazyOfEntry cdrEntry);
                    lazy_oid := oid |})
    | _, _ => Some (Throw InvalidObject)
    end.

Fixpoint readGitSexpExpression (fuel : nat) (objs : gmap Oid GitObject) (oid : Oid)
  : Fueled GitSexpExpression :=
  match fuel with
  | 0 => None
  | S fuel' =>
      if decide (oid = GitSexpEmptyValue_oid) then Some (Ok GitSexpEmpty)
      else if isGitSexpAtomOid objs oid then Some (readGitSexpAtom objs oid)
      else
        await* consLazy := readGitSexpConsLazy fuel' objs oid in
        await* car :=
          match lazy_car consLazy with
          | Some l =>
              await* e := readGitSexpExpression fuel' objs (oid_of_lazy l) in
              Some (Ok (Some e))
          | None => Some (Ok None)
          end in
        await* cdr :=
          match lazy_cdr consLazy with
          | Some l =>
              await* e := readGitSexpExpression fuel' objs (oid_of_lazy l) in
              Some (Ok (Some e))
          | None => Some (Ok None)
          end in
        Some (Ok (GitSexpCons (default GitSexpEmpty car) (default GitSexpEmpty cdr) oid))
  end.

Arguments readGitSexpExpression : simpl never.

(** ** History manager *)

(** The repository at [GITDIR]: the branch [HEAD] points to ([None] while
    the directory does not exist), the configuration, the object database
    and the branch tips. *)
Record Repo := {
  repo_head : option string;
  repo_config : gmap string string;
  repo_objects : gmap Oid GitObject;
  repo_branches : gmap string Oid
}.

Definition emptyRepo : Repo :=
  {| repo_head := None; repo_config := ∅; repo_objects := ∅; repo_branches := ∅ |}.

(** [git.init]: creates the directory with [HEAD] on the default branch;
    an existing repository is left alone. *)
Definition git_init (defaultBranch : string) (r : Repo) : Repo :=
  match repo_head r with
  | Some _ => r
  | None =>
      {| repo_head := Some defaultBranch; repo_config := repo_config r;
         repo_objects := repo_objects r; repo_branches := repo_branches r |}
  end.

Definition git_setConfig (path value : string) (r : Repo) : Repo :=
  {| repo_head := repo_head r; repo_config := <[path := value]> (repo_config r);
     repo_objects := repo_objects r; repo_branches := repo_branches r |}.

Definition git_listBranches (r : Repo) : list string :=
  (map_to_list (repo_branches r)).*1.

Definition git_resolveRef (r : Repo) (ref : string) : Result Oid :=
  match repo_branches r !! ref with
  | Some oid => Ok oid
  | None => Throw LineNotFound
  end.

Definition git_readCommit (r : Repo) (oid : Oid) : Result CommitObject :=
  let* objectInfo := git_readObject (repo_objects r) oid in
  match ro_object objectInfo with
  | Commit c => Ok c
  | _ => Throw ObjectTypeError
  end.

Section History.
Context `{Hasher}.

(** [git.commit] with an explicit tree and explicit parents (object ids,
    which resolve to themselves): the author comes from the
    configuration, the commit is written to the object database and the
    branch [HEAD] points to is moved to it. *)
Definition git_commit (now : Z) (t : Oid) (parent : list Oid) (message : string)
    (r : Repo) : Result (Oid * Repo) :=
  match repo_head r with
  | None => Throw NotFound
  | Some ref =>
      match repo_config r !! "user.name" with
      | None => Throw MissingName
      | Some name =>
          let email := default "" (repo_config r !! "user.email") in
          let c := {| commit_tree := t; commit_parent := parent;
                      commit_author := (name, email); commit_timestamp := now;
                      commit_message := message |} in
          let '(oid, objs') := writeObject (Commit c) (repo_objects r) in
          Ok (oid, {| repo_head := repo_head r; repo_config := repo_config r;
                      repo_objects := objs';
                      repo_branches := <[ref := oid]> (repo_branches r) |})
      end
  end.

Definition isRepoEmpty (r : Repo) : bool :=
  (length (git_listBranches r) =? 0)%nat.

Definition setupGitSexpRepo (now : Z) (r : Repo) : Result Repo :=
  let r := git_init HISTORY_BRANCH r in
  let r := git_setConfig "gc.auto" "0" r in
  let r := git_setConfig "user.name" "GitSexp" r in
  let r := git_setConfig "user.email" "git-sexp@localhost" r in
  if isRepoEmpty r then
    let* (_, r') := git_commit now GitSexpEmptyValue_oid [] "Initial commit" r in
    Ok r'
  else Ok r.

Definition updateBranchHead (now : Z) (sexpList : GitSexpExpression) (r : Repo)
  : Result Repo :=
  let* headCommitOid := git_resolveRef r HISTORY_BRANCH in
  let* (_, r') := git_commit now (oid_of sexpList) [headCommitOid] "Append messages" r in
  Ok r'.

(** A session of the single writer: appends to the history, with the
    encodings and prepends that build the lists in between. *)
Inductive Call :=
| callAppend (now : Z) (sexpList : GitSexpExpression)
| callEncode (value : JsSexp)
| callPrepend (str : JsString) (sexp : GitSexpExpression).

Definition withObjects (r : Repo) (objs : gmap Oid GitObject) : Repo :=
  {| repo_head := repo_head r; repo_config := repo_config r;
     repo_objects := objs; repo_branches := repo_branches r |}.

Definition runCall (c : Call) (r : Repo) : Result Repo :=
  match c with
  | callAppend now sexpList => updateBranchHead now sexpList r
  | callEncode value => Ok (withObjects r (jsSexpToGitSexp value (repo_objects r)).2)
  | callPrepend str sexp =>
      Ok (withObjects r (consStringOntoGitSexpExpression str sexp (repo_objects r)).2)
  end.



End History.

Definition loadHistoryGitSexpList (fuel : nat) (r : Repo) : Fueled GitSexpExpression :=
  await* headCommitOid := Some (git_resolveRef r HISTORY_BRANCH) in
  await* headCommit := Some (git_readCommit r headCommitOid) in
  let headTreeOid := commit_tree headCommit in
  readGitSexpExpression fuel (repo_objects r) headTreeOid.

(** ** Specification-side notions for the store *)

(** Content addressing: every object sits under its own hash. *)
Definition store_ok `{Hasher} (objs : gmap Oid GitObject) : Prop :=
  ∀ oid obj, objs !! oid = Some obj → hash obj = oid.

(** An expression is stored when reading its id gives it back. *)
Definition Stored (objs : gmap Oid GitObject) (sexp : GitSexpExpression) : Prop :=
  ∃ fuel, readGitSexpExpression fuel objs (oid_of sexp) = Some (Ok sexp).

(** The object graph: a tree refers to the ids of its entries, a commit to
    its tree and to its parents. *)
Inductive refers (objs : gmap Oid GitObject) (oid : Oid) : Oid → Prop :=
| refers_entry es e :
    objs !! oid = Some (Tree es) → e ∈ es → refers objs oid (entry_oid e)
| refers_tree c :
    objs !! oid = Some (Commit c) → refers objs oid (commit_tree c)
| refers_parent c p :
    objs !! oid = Some (Commit c) → p ∈ commit_parent c → refers objs oid p.

(** No cycle can be reached from [oid]. *)
Definition acyclic_from (objs : gmap Oid GitObject) (oid : Oid) : Prop :=
  ∀ o, rtc (refers objs) oid o → ¬ tc (refers objs) o o.

(** The record chain from a tip: each record has one predecessor, the
    bootstrap record has none.  Records are listed newest first. *)
Inductive RecordChain (objs : gmap Oid GitObject) : Oid → list (Oid * CommitObject) → Prop :=
| chain_bootstrap oid c :
    objs !! oid = Some (Commit c) → commit_parent c = [] →
    RecordChain objs oid [(oid, c)]
| chain_step oid c p rest :
    objs !! oid = Some (Commit c) → commit_parent c = [p] →
    RecordChain objs p rest →
    RecordChain objs oid ((oid, c) :: rest).

(** An initialized history: [HEAD] is on the history branch, the author is
    configured, and the tip is a bootstrap record whose snapshot is the
    empty expression. *)
Definition initialized (r : Repo) : Prop :=
  repo_head r = Some HISTORY_BRANCH
  ∧ is_Some (repo_config r !! "user.name")
  ∧ ∃ oid c, repo_branches r !! HISTORY_BRANCH = Some oid
             ∧ repo_objects r !! oid = Some (Commit c)
             ∧ commit_parent c = []
             ∧ commit_tree c = GitSexpEmptyValue_oid.



(** [toWellFormed] and [isWellFormed] on every string of a value. *)
Fixpoint toWellFormedSexp (v : JsSexp) : JsSexp :=
  match v with
  | JsEmptySexp => JsEmptySexp
  | JsAtom s => JsAtom (toWellFormed s)
  | JsCons car cdr => JsCons (toWellFormedSexp car) (toWellFormedSexp cdr)
  end.

Fixpoint isWellFormedSexp (v : JsSexp) : bool :=
  match v with
  | JsEmptySexp => true
  | JsAtom s => isWellFormed s
  | JsCons car cdr => isWellFormedSexp car && isWellFormedSexp cdr
  end.

(** An expression with [toWellFormed] applied to every payload, the ids
    left as they are. *)
Fixpoint toWellFormedExpression (sexp : GitSexpExpression) : GitSexpExpression :=
  match sexp with
  | GitSexpEmpty => GitSexpEmpty
  | GitSexpAtom value oid => GitSexpAtom (toWellFormed value) oid
  | GitSexpCons car cdr oid =>
      GitSexpCons (toWellFormedExpression car) (toWellFormedExpression cdr) oid
  end.

(** The list operations of the specification, as compositions of the
    functions of the source: [to_sequence] decodes and flattens,
    [from_sequence] builds the cons list of an array and encodes it. *)
Definition to_sequence (l : GitSexpExpression) : Result (list JsString) :=
  consListToStringArray (gitSexpToJsSexp l).

Definition from_sequence `{Hasher} (items : ArrayRef) (h : ArrayHeap)
    (objs : gmap Oid GitObject)
  : option (GitSexpExpression * ArrayHeap * gmap Oid GitObject) :=
  match stringArrayToConsList items h with
  | None => None
  | Some (sexp, h') =>
      let '(l, objs') := jsSexpToGitSexp sexp objs in
      Some (l, h', objs')
  end.

(** The order [GitTree] sorts by. *)
Definition leb_path (a b : TreeEntry) : Prop :=
  String.leb (entry_path a) (entry_path b) = true.

(** The listing test of [isValidGitSexpConsObject], for a parsed tree. *)
Definition consListing (t : list TreeEntry) : bool :=
  (length t =? 2)%nat
  && existsb (λ entry, String.eqb (entry_path entry) "car") t
  && existsb (λ entry, String.eqb (entry_path entry) "cdr") t.

(** The cases of one step of the reader. *)
Inductive ReadCase (objs : gmap Oid GitObject) (oid : Oid) : Type :=
| case_empty : oid = GitSexpEmptyValue_oid → ReadCase objs oid
| case_missing : oid ≠ GitSexpEmptyValue_oid → objs !! oid = None → ReadCase objs oid
| case_blob b : oid ≠ GitSexpEmptyValue_oid → objs !! oid = Some (Blob b) → ReadCase objs oid
| case_commit c :
    oid ≠ GitSexpEmptyValue_oid → objs !! oid = Some (Commit c) → ReadCase objs oid
| case_invalid es :
    oid ≠ GitSexpEmptyValue_oid → objs !! oid = Some (Tree es) →
    consListing (sortEntries es) = false → ReadCase objs oid
| case_cons es ce de :
    oid ≠ GitSexpEmptyValue_oid → objs !! oid = Some (Tree es) →
    sortEntries es = [ce; de] → entry_path ce = "car" → entry_path de = "cdr" →
    ReadCase objs oid.

(** ** A concrete injective hash

    The object serialised: every field framed by its length in unary, so
    that no two objects share a code.  It stands in for SHA-1 wherever a
    statement is run on concrete data. *)

Definition frame (s : list ascii) : list ascii :=
  replicate (length s) "1"%char ++ "0"%char :: s.

Definition frameS (s : string) : list ascii := frame (list_ascii_of_string s).

Definition typeCode (t : ObjectType) : ascii :=
  match t with blob => "b" | tree => "t" | commit => "c" end%char.

Definition serEntry (e : TreeEntry) : list ascii :=
  frameS (entry_mode e) ++ frameS (entry_path e) ++ frameS (entry_oid e)
  ++ [typeCode (entry_type e)].

Definition serialize (obj : GitObject) : list ascii :=
  match obj with
  | Blob b => "b"%char :: map ascii_of_byte b
  | Tree [] => list_ascii_of_string GitSexpEmptyValue_oid
  | Tree es => "t"%char :: concat (map serEntry es)
  | Commit c =>
      "c"%char :: frameS (commit_tree c) ++ frameS (fst (commit_author c))
      ++ frameS (snd (commit_author c)) ++ frameS (pretty (commit_timestamp c))
      ++ frameS (commit_message c) ++ concat (map frameS (commit_parent c))
  end.

Definition demoHash : Hasher := λ obj, string_of_list_ascii (serialize obj).

(** ** The lazy writers and the pair predicate *)

(** [GitSexpExpressionLazy] as the lazy writers build it: a lazy pair may
    carry its children ([car?], [cdr?]). *)
Inductive LazySexp :=
| LazyEmpty
| LazyAtom (oid : Oid)
| LazyCons (car cdr : option LazySexp) (oid : Oid).

Definition oid_of_LazySexp (sexp : LazySexp) : Oid :=
  match sexp with
  | LazyEmpty => GitSexpEmptyValue_oid
  | LazyAtom oid => oid
  | LazyCons _ _ oid => oid
  end.

(** The helper [getTypeAndMode] of [writeGitSexpConsLazy]. *)
Definition getTypeAndModeLazy (sexp : LazySexp) : ObjectType * string :=
  match sexp with
  | LazyEmpty => (tree, "040000")
  | LazyAtom _ => (blob, "100644")
  | LazyCons _ _ _ => (tree, "040000")
  end.

(** The two entries [writeGitSexpConsLazy] hands to [git.writeTree]. *)
Definition consTreeLazy (car cdr : LazySexp) : list TreeEntry :=
  [ {| entry_mode := snd (getTypeAndModeLazy car); entry_path := "car";
       entry_oid := oid_of_LazySexp car; entry_type := fst (getTypeAndModeLazy car) |};
    {| entry_mode := snd (getTypeAndModeLazy cdr); entry_path := "cdr";
       entry_oid := oid_of_LazySexp cdr; entry_type := fst (getTypeAndModeLazy cdr) |} ].

Section LazyWriters.
Context `{Hasher}.

Definition writeGitSexpConsLazy (car cdr : LazySexp) (objs : gmap Oid GitObject)
  : LazySexp * gmap Oid GitObject :=
  let '(consOid, objs') := git_writeTree (consTreeLazy car cdr) objs in
  (LazyCons (Some car) (Some cdr) consOid, objs').

(** The loop runs over the array from its last element to its first; an
    element that is [null] or [undefined] ([None]) is passed over. *)
Definition writeGitSexpListLazy (sexps : list (option LazySexp))
    (objs : gmap Oid GitObject) : LazySexp * gmap Oid GitObject :=
  fold_left (λ (acc : LazySexp * gmap Oid GitObject) (sexp : option LazySexp),
               match sexp with
               | Some s => writeGitSexpConsLazy s acc.1 acc.2
               | None => acc
               end)
            (rev sexps) (LazyEmpty, objs).
End LazyWriters.

(** [isGitSexpConsOid]: every error of the store is caught and answered
    [false]. *)
Definition isGitSexpConsOid (fuel : nat) (objs : gmap Oid GitObject) (oid : Oid)
  : option bool :=
  match git_readObject objs oid with
  | Throw _ => Some false
  | Ok objectInfo =>
      match (if ObjectFormat_eqb (ro_format objectInfo) parsed
                && ObjectType_eqb (ro_type objectInfo) tree
             then Some (Ok (ro_tree objectInfo))
             else git_readTree fuel objs oid) with
      | None => None
      | Some (Throw _) => Some false
      | Some (Ok t) => Some (isValidGitSexpConsObject objectInfo t)
      end
  end.

(** An expression as the lazy writers see it: ids and kinds, no
    payloads. *)
Fixpoint toLazy (sexp : GitSexpExpression) : LazySexp :=
  match sexp with
  | GitSexpEmpty => LazyEmpty
  | GitSexpAtom _ oid => LazyAtom oid
  | GitSexpCons car cdr oid => LazyCons (Some (toLazy car)) (Some (toLazy cdr)) oid
  end.

(** A lazy expression as a child of a pair read lazily: kind and id. *)
Definition childOf (sexp : LazySexp) : GitSexpExpressionLazy :=
  match sexp with
  | LazyEmpty => GitSexpEmptyLazy
  | LazyAtom oid => GitSexpAtomLazy oid
  | LazyCons _ _ oid => GitSexpConsLazyRef oid
  end.

(** Only the empty expression carries the id of the empty tree. *)
Definition properId (sexp : LazySexp) : Prop :=
  match sexp with
  | LazyEmpty => True
  | LazyAtom oid => oid ≠ GitSexpEmptyValue_oid
  | LazyCons _ _ oid => oid ≠ GitSexpEmptyValue_oid
  end.

(** Two stores that differ at most in the mode and type their tree
    entries declare. *)
Definition sameRef (e1 e2 : TreeEntry) : Prop :=
  entry_path e1 = entry_path e2 ∧ entry_oid e1 = entry_oid e2.

Definition sameObject (o1 o2 : GitObject) : Prop :=
  match o1, o2 with
  | Blob b1, Blob b2 => b1 = b2
  | Tree es1, Tree es2 => Forall2 sameRef es1 es2
  | Commit c1, Commit c2 => c1 = c2
  | _, _ => False
  end.

Definition sameStore (objs1 objs2 : gmap Oid GitObject) : Prop :=
  ∀ oid, option_Forall2 sameObject (objs1 !! oid) (objs2 !! oid).

(** The ids of the atoms and pairs of an expression. *)
Fixpoint subOids (sexp : GitSexpExpression) : gset Oid :=
  match sexp with
  | GitSexpEmpty => ∅
  | GitSexpAtom _ oid => {[ oid ]}
  | GitSexpCons car cdr oid => {[ oid ]} ∪ subOids car ∪ subOids cdr
  end.

(** The cons list of an array of strings. *)
Definition consListOf (l : list JsString) : JsSexp :=
  foldr (λ str list, JsCons (JsAtom str) list) JsEmptySexp l.

(** ** Concrete data

    The list ["A", "B"] encoded into a freshly set up repository, under
    the concrete hash. *)

Definition exampleList : JsSexp :=
  JsCons (JsAtom (js "A")) (JsCons (JsAtom (js "B")) JsEmptySexp).

Definition exampleSetup : Repo :=
  match @setupGitSexpRepo demoHash 0 emptyRepo with
  | Ok r => r
  | Throw _ => emptyRepo
  end.

Definition exampleEncoded : GitSexpExpression * gmap Oid GitObject :=
  @jsSexpToGitSexp demoHash exampleList (repo_objects exampleSetup).

Definition exampleRepo : Repo :=
  {| repo_head := repo_head exampleSetup; repo_config := repo_config exampleSetup;
     repo_objects := exampleEncoded.2; repo_branches := repo_branches exampleSetup |}.

(** A pair and an atom, with made-up ids. *)
Definition exampleStore : gmap Oid GitObject :=
  {[ "t1" := Tree [ {| entry_mode := "100644"; entry_path := "car";
                       entry_oid := "a1"; entry_type := blob |};
                    {| entry_mode := "040000"; entry_path := "cdr";
                       entry_oid := GitSexpEmptyValue_oid; entry_type := tree |} ];
     "a1" := Blob (Buffer_from (js "A")) ]}.

(** The example repository after the list has been appended at time 1, and
    after "X" has been prepended to the list. *)
Definition exampleAppended : Repo :=
  match @updateBranchHead demoHash 1 exampleEncoded.1 exampleRepo with
  | Ok r => r
  | Throw _ => emptyRepo
  end.

Definition examplePrepended : Repo :=
  withObjects exampleRepo
    (@consStringOntoGitSexpExpression demoHash (js "X") exampleEncoded.1
       (repo_objects exampleRepo)).2.

(** * Properties *)

(** ** JS strings and their bytes *)

Lemma to_N_byte_of (n : N) : (n < 256)%N → Byte.to_N (byte_of n) = n.
Proof.
  intros Hn. unfold byte_of. destruct (Byte.of_N n) as [b|] eqn:Hb.
  - by apply Byte.to_of_N.
  - apply Byte.of_N_None_iff in Hb. lia.
Qed.

(** Linear arithmetic with division by constants. *)
Ltac div_lia := zify; Z.to_euclidean_division_equations; lia.

Ltac decide_tests :=
  repeat (match goal with
          | |- context [N.leb ?a ?b] => destruct (N.leb_spec a b)
          | |- context [N.eqb ?a ?b] => destruct (N.eqb_spec a b)
          end;
          try (exfalso; div_lia);
          cbn [andb utf8_lower utf8_upper utf8_needed utf8_codePoint]).

Lemma utf8_step_cons (st : option Utf8State) (x : Byte.byte) (bs : list Byte.byte) :
  utf8_decode st (x :: bs)
  = (utf8_step st (Byte.to_N x)).1 ++ utf8_decode (utf8_step st (Byte.to_N x)).2 bs.
Proof. simpl. by destruct (utf8_step st (Byte.to_N x)). Qed.

Ltac utf8_byte :=
  rewrite utf8_step_cons, to_N_byte_of by div_lia;
  unfold utf8_step, utf8_start;
  cbn [utf8_lower utf8_upper utf8_needed utf8_codePoint];
  decide_tests; cbn [fst snd app].

Lemma utf8_decode_encode (c : N) (rest : list Byte.byte) :
  scalar c →
  utf8_decode None (utf8_encode c ++ rest) = c :: utf8_decode None rest.
Proof.
  unfold scalar, utf8_encode. intros Hc.
  destruct (N.leb_spec c 0x7F); [|destruct (N.leb_spec c 0x7FF); [|destruct (N.leb_spec c 0xFFFF)]];
    cbn [app].
  - utf8_byte. done.
  - do 2 utf8_byte. f_equal. div_lia.
  - do 3 utf8_byte; f_equal; div_lia.
  - do 4 utf8_byte; f_equal; div_lia.
Qed.

Lemma JsString_ind2 (P : JsString → Prop) :
  P [] → (∀ u, P [u]) → (∀ u t s, P s → P (t :: s) → P (u :: t :: s)) → ∀ s, P s.
Proof.
  intros Hnil Hone Htwo s.
  cut (P s ∧ ∀ u, P (u :: s)); [by intros [? _]|].
  induction s as [|t s [IH1 IH2]]; [done|]. split; [apply IH2|].
  intros u. by apply Htwo.
Qed.

Lemma codePoints_cons2 (u t : CodeUnit) (s : JsString) :
  codePoints (u :: t :: s)
  = if isLeadingSurrogate u then
      if isTrailingSurrogate t
      then UTF16SurrogatePairToCodePoint u t :: codePoints s
      else REPLACEMENT_CHARACTER :: codePoints (t :: s)
    else if isTrailingSurrogate u || (0xFFFF <? u)%N
    then REPLACEMENT_CHARACTER :: codePoints (t :: s)
    else u :: codePoints (t :: s).
Proof. reflexivity. Qed.

Lemma isWellFormed_cons2 (u t : CodeUnit) (s : JsString) :
  isWellFormed (u :: t :: s)
  = if isLeadingSurrogate u then isTrailingSurrogate t && isWellFormed s
    else negb (isTrailingSurrogate u) && (u <=? 0xFFFF)%N && isWellFormed (t :: s).
Proof. reflexivity. Qed.

Lemma isLeadingSurrogate_true (u : N) :
  isLeadingSurrogate u = true ↔ (0xD800 ≤ u ≤ 0xDBFF)%N.
Proof. unfold isLeadingSurrogate. rewrite andb_true_iff, !N.leb_le. done. Qed.

Lemma isLeadingSurrogate_false (u : N) :
  isLeadingSurrogate u = false ↔ (u < 0xD800 ∨ 0xDBFF < u)%N.
Proof. unfold isLeadingSurrogate. rewrite andb_false_iff, !N.leb_gt. done. Qed.

Lemma isTrailingSurrogate_true (u : N) :
  isTrailingSurrogate u = true ↔ (0xDC00 ≤ u ≤ 0xDFFF)%N.
Proof. unfold isTrailingSurrogate. rewrite andb_true_iff, !N.leb_le. done. Qed.

Lemma isTrailingSurrogate_false (u : N) :
  isTrailingSurrogate u = false ↔ (u < 0xDC00 ∨ 0xDFFF < u)%N.
Proof. unfold isTrailingSurrogate. rewrite andb_false_iff, !N.leb_gt. done. Qed.

(** Turns the tests on code units among the hypotheses into arithmetic. *)
Ltac unit_arith :=
  repeat match goal with
         | H : isLeadingSurrogate _ = true |- _ => apply isLeadingSurrogate_true in H
         | H : isLeadingSurrogate _ = false |- _ => apply isLeadingSurrogate_false in H
         | H : isTrailingSurrogate _ = true |- _ => apply isTrailingSurrogate_true in H
         | H : isTrailingSurrogate _ = false |- _ => apply isTrailingSurrogate_false in H
         | H : _ || _ = false |- _ => apply orb_false_iff in H as [? ?]
         | H : (_ <? _)%N = false |- _ => apply N.ltb_ge in H
         | H : (_ <? _)%N = true |- _ => apply N.ltb_lt in H
         | H : (_ <=? _)%N = false |- _ => apply N.leb_gt in H
         | H : (_ <=? _)%N = true |- _ => apply N.leb_le in H
         end;
  unfold scalar, UTF16SurrogatePairToCodePoint, REPLACEMENT_CHARACTER in *.

Lemma scalar_REPLACEMENT_CHARACTER : scalar REPLACEMENT_CHARACTER.
Proof. unfold scalar, REPLACEMENT_CHARACTER. lia. Qed.

Lemma codePoints_scalar (s : JsString) : Forall scalar (codePoints s).
Proof.
  pose proof scalar_REPLACEMENT_CHARACTER as Hrep.
  induction s as [|u|u t s IH1 IH2] using JsString_ind2.
  - constructor.
  - cbn [codePoints].
    destruct (isLeadingSurrogate u) eqn:Hl; [by repeat constructor|].
    destruct (isTrailingSurrogate u || (0xFFFF <? u)%N) eqn:Ht; [by repeat constructor|].
    constructor; [|constructor]. clear Hrep. unit_arith. lia.
  - rewrite codePoints_cons2.
    destruct (isLeadingSurrogate u) eqn:Hl.
    + destruct (isTrailingSurrogate t) eqn:Ht; constructor; try done.
      clear Hrep IH1 IH2. unit_arith. lia.
    + destruct (isTrailingSurrogate u || (0xFFFF <? u)%N) eqn:Ht; constructor; try done.
      clear Hrep IH1 IH2. unit_arith. lia.
Qed.

Lemma utf8_decode_flat_map (cps : list N) :
  Forall scalar cps → utf8_decode None (flat_map utf8_encode cps) = cps.
Proof.
  induction 1 as [|c cps Hc _ IH]; [done|]. cbn [flat_map].
  by rewrite utf8_decode_encode, IH.
Qed.

(** What is written and read back is the string with every unpaired
    surrogate replaced. *)
Lemma Buffer_toString_from (s : JsString) : Buffer_toString (Buffer_from s) = toWellFormed s.
Proof.
  unfold Buffer_toString, Buffer_from, toWellFormed.
  by rewrite utf8_decode_flat_map by apply codePoints_scalar.
Qed.

Lemma toWellFormed_cons2 (u t : CodeUnit) (s : JsString) :
  toWellFormed (u :: t :: s)
  = if isLeadingSurrogate u then
      if isTrailingSurrogate t
      then UTF16EncodeCodePoint (UTF16SurrogatePairToCodePoint u t) ++ toWellFormed s
      else UTF16EncodeCodePoint REPLACEMENT_CHARACTER ++ toWellFormed (t :: s)
    else if isTrailingSurrogate u || (0xFFFF <? u)%N
    then UTF16EncodeCodePoint REPLACEMENT_CHARACTER ++ toWellFormed (t :: s)
    else UTF16EncodeCodePoint u ++ toWellFormed (t :: s).
Proof.
  unfold toWellFormed. rewrite codePoints_cons2.
  by repeat destruct (_ : bool).
Qed.

Lemma UTF16EncodeCodePoint_pair (u t : CodeUnit) :
  isLeadingSurrogate u = true → isTrailingSurrogate t = true →
  UTF16EncodeCodePoint (UTF16SurrogatePairToCodePoint u t) = [u; t].
Proof.
  unfold isLeadingSurrogate, isTrailingSurrogate, UTF16SurrogatePairToCodePoint,
    UTF16EncodeCodePoint.
  intros [H1 H2]%andb_true_iff [H3 H4]%andb_true_iff.
  apply N.leb_le in H1, H2, H3, H4.
  destruct (N.leb_spec ((u - 0xD800) * 0x400 + (t - 0xDC00) + 0x10000) 0xFFFF); [lia|].
  f_equal; [div_lia|f_equal; div_lia].
Qed.

Lemma UTF16EncodeCodePoint_unit (u : CodeUnit) :
  (u <= 0xFFFF)%N → UTF16EncodeCodePoint u = [u].
Proof. intros Hu. unfold UTF16EncodeCodePoint. by rewrite (proj2 (N.leb_le _ _) Hu). Qed.

Lemma toWellFormed_id (s : JsString) : isWellFormed s = true ↔ toWellFormed s = s.
Proof.
  induction s as [|u|u t s IH1 IH2] using JsString_ind2.
  - done.
  - unfold toWellFormed. cbn [isWellFormed codePoints].
    destruct (isLeadingSurrogate u) eqn:Hl.
    + split; [done|]. cbn. intros [= <-]. done.
    + destruct (isTrailingSurrogate u) eqn:Ht; cbn [orb negb andb].
      * split; [done|]. cbn. intros [= <-]. done.
      * destruct (N.leb_spec u 0xFFFF) as [Hu|Hu]; cbn [andb].
        -- rewrite (proj2 (N.ltb_ge _ _) Hu). cbn [flat_map].
           by rewrite UTF16EncodeCodePoint_unit.
        -- rewrite (proj2 (N.ltb_lt _ _) Hu). split; [done|]. cbn. intros [= <-]. done.
  - rewrite isWellFormed_cons2, toWellFormed_cons2.
    destruct (isLeadingSurrogate u) eqn:Hl.
    + destruct (isTrailingSurrogate t) eqn:Ht; cbn [andb].
      * rewrite UTF16EncodeCodePoint_pair by done. cbn [app]. rewrite IH1.
        split; [by intros ->|by intros [= ->]].
      * split; [done|]. cbn. intros [= <-]. done.
    + destruct (isTrailingSurrogate u) eqn:Hu; cbn [orb negb andb].
      * split; [done|]. cbn. intros [= <-]. done.
      * destruct (N.leb_spec u 0xFFFF) as [Hr|Hr]; cbn [andb].
        -- rewrite (proj2 (N.ltb_ge _ _) Hr), UTF16EncodeCodePoint_unit by done.
           cbn [app]. rewrite IH2. split; [by intros ->|by intros [= ->]].
        -- rewrite (proj2 (N.ltb_lt _ _) Hr). split; [done|]. cbn. intros [= <-]. done.
Qed.

Lemma codePoints_UTF16EncodeCodePoint (c : N) (s : JsString) :
  scalar c → codePoints (UTF16EncodeCodePoint c ++ s) = c :: codePoints s.
Proof.
  intros Hc. unfold UTF16EncodeCodePoint.
  destruct (N.leb_spec c 0xFFFF) as [Hr|Hr]; cbn [app].
  - assert (isLeadingSurrogate c = false) as Hl
      by (apply isLeadingSurrogate_false; unfold scalar in Hc; lia).
    assert (isTrailingSurrogate c || (0xFFFF <? c)%N = false) as Ht.
    { apply orb_false_iff. split; [apply isTrailingSurrogate_false|apply N.ltb_ge];
        unfold scalar in Hc; lia. }
    destruct s as [|t s]; [cbn [codePoints]|rewrite codePoints_cons2]; by rewrite Hl, Ht.
  - rewrite codePoints_cons2.
    assert (isLeadingSurrogate ((c - 0x10000) / 0x400 + 0xD800) = true) as ->.
    { unfold isLeadingSurrogate, scalar in *. apply andb_true_iff.
      split; apply N.leb_le; div_lia. }
    assert (isTrailingSurrogate ((c - 0x10000) mod 0x400 + 0xDC00) = true) as ->.
    { unfold isTrailingSurrogate, scalar in *. apply andb_true_iff.
      split; apply N.leb_le; div_lia. }
    f_equal. unfold UTF16SurrogatePairToCodePoint. div_lia.
Qed.

Lemma codePoints_flat_map (cps : list N) :
  Forall scalar cps → codePoints (flat_map UTF16EncodeCodePoint cps) = cps.
Proof.
  induction 1 as [|c cps Hc _ IH]; [done|]. cbn [flat_map].
  by rewrite codePoints_UTF16EncodeCodePoint, IH.
Qed.

Lemma codePoints_toWellFormed (s : JsString) : codePoints (toWellFormed s) = codePoints s.
Proof. apply codePoints_flat_map, codePoints_scalar. Qed.

Lemma Buffer_from_toWellFormed (s : JsString) : Buffer_from (toWellFormed s) = Buffer_from s.
Proof. unfold Buffer_from. by rewrite codePoints_toWellFormed. Qed.

Lemma Buffer_from_eq_iff (s1 s2 : JsString) :
  Buffer_from s1 = Buffer_from s2 ↔ toWellFormed s1 = toWellFormed s2.
Proof.
  split; intros Heq.
  - by rewrite <- !Buffer_toString_from, Heq.
  - by rewrite <- (Buffer_from_toWellFormed s1), Heq, Buffer_from_toWellFormed.
Qed.

Lemma isWellFormed_flat_map (cps : list N) :
  Forall scalar cps → isWellFormed (flat_map UTF16EncodeCodePoint cps) = true.
Proof.
  intros Hs. apply toWellFormed_id. unfold toWellFormed. by rewrite codePoints_flat_map.
Qed.

Lemma isWellFormed_toWellFormed (s : JsString) : isWellFormed (toWellFormed s) = true.
Proof. apply isWellFormed_flat_map, codePoints_scalar. Qed.

Lemma Buffer_from_inj (s1 s2 : JsString) :
  isWellFormed s1 = true → isWellFormed s2 = true →
  Buffer_from s1 = Buffer_from s2 → s1 = s2.
Proof.
  intros H1%toWellFormed_id H2%toWellFormed_id Heq%Buffer_from_eq_iff. congruence.
Qed.

(** The decoder only ever produces scalar values. *)
Lemma utf8_start_ok (x : N) :
  Forall scalar (utf8_start x).1 ∧ utf8_state_ok (utf8_start x).2.
Proof.
  unfold utf8_start, utf8_state_ok, scalar, REPLACEMENT_CHARACTER.
  repeat (match goal with
          | |- context [N.leb ?a ?b] => destruct (N.leb_spec a b)
          | |- context [N.eqb ?a ?b] => destruct (N.eqb_spec a b)
          end; cbn [andb fst snd utf8_lower utf8_upper utf8_needed utf8_codePoint]);
    (split; [repeat (constructor; try lia)|try done; lia]).
Qed.

Lemma utf8_step_ok (st : option Utf8State) (x : N) :
  utf8_state_ok st →
  Forall scalar (utf8_step st x).1 ∧ utf8_state_ok (utf8_step st x).2.
Proof.
  destruct st as [[c n lo hi]|]; [|intros _; apply utf8_start_ok].
  unfold utf8_step. cbn [utf8_lower utf8_upper utf8_needed utf8_codePoint utf8_state_ok].
  intros Hok.
  destruct (N.leb_spec lo x); cbn [andb]; [destruct (N.leb_spec x hi)|]; cbn [andb].
  - destruct (N.eqb_spec n 1); cbn [fst snd utf8_state_ok utf8_lower utf8_upper utf8_needed utf8_codePoint].
    + split; [|done]. constructor; [|constructor]. unfold scalar. lia.
    + split; [constructor|]. lia.
  - pose proof (utf8_start_ok x) as [Hs Ho]. destruct (utf8_start x) as [out st'].
    split; [|done]. constructor; [apply scalar_REPLACEMENT_CHARACTER|done].
  - pose proof (utf8_start_ok x) as [Hs Ho]. destruct (utf8_start x) as [out st'].
    split; [|done]. constructor; [apply scalar_REPLACEMENT_CHARACTER|done].
Qed.

Lemma utf8_decode_scalar (st : option Utf8State) (bs : list Byte.byte) :
  utf8_state_ok st → Forall scalar (utf8_decode st bs).
Proof.
  revert st. induction bs as [|x bs IH]; intros st Hok.
  - destruct st; [|constructor].
    constructor; [apply scalar_REPLACEMENT_CHARACTER|constructor].
  - rewrite utf8_step_cons. destruct (utf8_step_ok st (Byte.to_N x) Hok) as [Hs Ho].
    apply Forall_app. split; [done|by apply IH].
Qed.

(** Whatever bytes are read, the string that comes back is well formed. *)
Lemma isWellFormed_Buffer_toString (b : list Byte.byte) :
  isWellFormed (Buffer_toString b) = true.
Proof. by apply isWellFormed_flat_map, utf8_decode_scalar. Qed.

(** ** List builder *)

Lemma fold_left_cons_list (l : list JsString) (acc : JsSexp) :
  fold_left (λ (list : JsSexp) (str : JsString), JsCons (JsAtom str) list) l acc
  = foldr (λ str list, JsCons (JsAtom str) list) acc (rev l).
Proof.
  revert acc. induction l as [|x l IH]; intros acc; simpl; [done|].
  by rewrite IH, foldr_app.
Qed.

Lemma consList_ProperList (l : list JsString) :
  ProperList (foldr (λ str list, JsCons (JsAtom str) list) JsEmptySexp l) l.
Proof. induction l; simpl; by constructor. Qed.

Lemma consListToStringArray_proper (v : JsSexp) (l : list JsString) :
  ProperList v l → consListToStringArray v = Ok l.
Proof. induction 1 as [|s cdr l _ IH]; simpl; [done|]. by rewrite IH. Qed.

Lemma stringArrayToConsList_spec (a : ArrayRef) (h : ArrayHeap) (elems : list JsString) :
  h !! a = Some elems →
  stringArrayToConsList a h
  = Some (foldr (λ str list, JsCons (JsAtom str) list) JsEmptySexp elems,
          <[a := rev elems]> h).
Proof.
  intros Ha. unfold stringArrayToConsList. rewrite Ha.
  by rewrite fold_left_cons_list, rev_involutive.
Qed.

(** C10: [stringArrayToConsList] reverses the caller's array in place.  The
    call returns the cons list of the elements in their order, leaves the
    array holding them reversed and every other array as it was; a second
    call on the same array therefore builds the list of the reversed
    elements (and puts the array back). *)
Theorem stringArrayToConsList_mutates_argument
    (a : ArrayRef) (h : ArrayHeap) (elems : list JsString) :
  h !! a = Some elems →
  ∃ h',
    stringArrayToConsList a h
    = Some (foldr (λ str list, JsCons (JsAtom str) list) JsEmptySexp elems, h')
    ∧ h' !! a = Some (rev elems)
    ∧ (∀ b, b ≠ a → h' !! b = h !! b)
    ∧ stringArrayToConsList a h'
      = Some (foldr (λ str list, JsCons (JsAtom str) list) JsEmptySexp (rev elems),
              <[a := elems]> h').
Proof.
  intros Ha. exists (<[a := rev elems]> h). split_and!.
  - by apply stringArrayToConsList_spec.
  - by rewrite lookup_insert_eq.
  - intros b Hb. by rewrite lookup_insert_ne.
  - erewrite stringArrayToConsList_spec by apply lookup_insert_eq.
    by rewrite rev_involutive, insert_insert_eq.
Qed.

Lemma stringArrayToConsList_mutates_argument_witness :
  ∃ h',
    stringArrayToConsList 1%positive {[ 1%positive := [js "Hello"; js "World"; js "Foo"] ]}
    = Some (foldr (λ str list, JsCons (JsAtom str) list) JsEmptySexp
              [js "Hello"; js "World"; js "Foo"], h')
    ∧ h' !! 1%positive = Some (rev [js "Hello"; js "World"; js "Foo"])
    ∧ (∀ b, b ≠ 1%positive →
         h' !! b = ({[ 1%positive := [js "Hello"; js "World"; js "Foo"] ]} : ArrayHeap) !! b)
    ∧ stringArrayToConsList 1%positive h'
      = Some (foldr (λ str list, JsCons (JsAtom str) list) JsEmptySexp
                (rev [js "Hello"; js "World"; js "Foo"]),
              <[1%positive := [js "Hello"; js "World"; js "Foo"]]> h').
Proof.
  apply (stringArrayToConsList_mutates_argument 1%positive
           {[ 1%positive := [js "Hello"; js "World"; js "Foo"] ]}).
  reflexivity.
Defined.

Lemma chain_cons (car : JsSexp) (cars : list JsSexp) (terminal : JsSexp) :
  chain (car :: cars) terminal = JsCons car (chain cars terminal).
Proof. reflexivity. Qed.

(** Every value is a chain of cars ending in a terminal that is not a
    pair. *)
Lemma chain_decompose (v : JsSexp) :
  ∃ cars terminal, v = chain cars terminal ∧ isJsCons terminal = false.
Proof.
  induction v as [| s | car _ cdr (cars & t & -> & Ht)].
  - by exists [], JsEmptySexp.
  - by exists [], (JsAtom s).
  - by exists (car :: cars), t.
Qed.

(** C5, as the code has it: walking a chain fails with [NotAProperList]
    exactly when some car is not an atom.  Otherwise it returns the payloads
    of the cars in order, followed by the payload of the terminal: nothing
    for the empty expression, the atom itself when the chain ends in an
    atom. *)
Theorem consListToStringArray_chain (cars : list JsSexp) (terminal : JsSexp) :
  isJsCons terminal = false →
  consListToStringArray (chain cars terminal)
  = if forallb isJsAtom cars then Ok (payloads cars ++ payload terminal)%list
    else Throw NotAProperList.
Proof.
  intros Ht. induction cars as [|car cars IH].
  - by destruct terminal.
  - rewrite chain_cons. destruct car as [| s | c1 c2]; simpl; try done.
    rewrite IH. by destruct (forallb isJsAtom cars).
Qed.

Lemma consListToStringArray_chain_witness :
  consListToStringArray (chain [JsAtom (js "a"); JsAtom (js "b")] (JsAtom (js "c")))
  = (if forallb isJsAtom [JsAtom (js "a"); JsAtom (js "b")]
     then Ok (payloads [JsAtom (js "a"); JsAtom (js "b")] ++ payload (JsAtom (js "c")))%list
     else Throw NotAProperList).
Proof. apply (consListToStringArray_chain [JsAtom (js "a"); JsAtom (js "b")] (JsAtom (js "c"))). reflexivity. Defined.

(** C5, as stated, fails: the dotted pair ["a", "b"] does not end in the
    empty expression, and it is flattened without an error. *)
Lemma consListToStringArray_accepts_dotted_pair :
  consListToStringArray (JsCons (JsAtom (js "a")) (JsAtom (js "b"))) = Ok [js "a"; js "b"]
  ∧ ¬ ∃ l, ProperList (JsCons (JsAtom (js "a")) (JsAtom (js "b"))) l.
Proof.
  split; [reflexivity|].
  intros [l Hl]. inversion Hl as [|s cdr l' Hcdr]; subst. inversion Hcdr.
Qed.

(** ** Sexp codec *)

Section CodecFacts.
Context `{Hasher}.

(** C1: decoding the result of encoding a value gives the value back,
    whatever the store held before. *)
Theorem gitSexpToJsSexp_jsSexpToGitSexp (v : JsSexp) (objs : gmap Oid GitObject) :
  gitSexpToJsSexp (jsSexpToGitSexp v objs).1 = v.
Proof.
  revert objs. induction v as [| s | v0 IH0 v1 IH1]; intros objs; simpl.
  - done.
  - done.
  - specialize (IH0 objs). destruct (jsSexpToGitSexp v0 objs) as [car objs1].
    specialize (IH1 objs1). destruct (jsSexpToGitSexp v1 objs1) as [cdr objs2].
    simpl in *. by rewrite IH0, IH1.
Qed.
End CodecFacts.

(** ** The object store *)

Lemma oid_of_lazyOfEntry (e : TreeEntry) : oid_of_lazy (lazyOfEntry e) = entry_oid e.
Proof.
  unfold lazyOfEntry. case_decide as He; [by rewrite He|].
  by destruct (ObjectType_eqb _ _).
Qed.

Section StoreFacts.
Context `{Hasher}.

Lemma writeObject_subseteq (obj : GitObject) (objs : gmap Oid GitObject) :
  objs ⊆ (writeObject obj objs).2.
Proof.
  unfold writeObject; simpl. destruct (objs !! hash obj) eqn:Hl; [done|].
  by apply insert_subseteq.
Qed.

Lemma writeObject_dom (obj : GitObject) (objs : gmap Oid GitObject) :
  dom (writeObject obj objs).2 = {[ hash obj ]} ∪ dom objs.
Proof.
  unfold writeObject; simpl. destruct (objs !! hash obj) eqn:Hl.
  - apply (elem_of_dom_2 objs) in Hl. set_solver.
  - by rewrite dom_insert_L.
Qed.

Lemma writeObject_lookup_ne (obj : GitObject) (objs : gmap Oid GitObject) (oid : Oid) :
  oid ≠ hash obj → (writeObject obj objs).2 !! oid = objs !! oid.
Proof.
  intros Hne. unfold writeObject; simpl. destruct (objs !! hash obj) eqn:Hl; [done|].
  by rewrite lookup_insert_ne.
Qed.

Lemma writeObject_store_ok (obj : GitObject) (objs : gmap Oid GitObject) :
  store_ok objs → store_ok (writeObject obj objs).2.
Proof.
  intros Hok oid x. unfold writeObject; simpl.
  destruct (objs !! hash obj) eqn:Hl; [by apply Hok|].
  rewrite lookup_insert. case_decide as Heq.
  - intros [= <-]. done.
  - apply Hok.
Qed.

Lemma store_ok_empty : store_ok ∅.
Proof. intros oid obj. by rewrite lookup_empty. Qed.

(** The expression built by the encoder does not depend on what the
    store holds. *)
Lemma jsSexpToGitSexp_fst_indep (v : JsSexp) (objs objs' : gmap Oid GitObject) :
  (jsSexpToGitSexp v objs).1 = (jsSexpToGitSexp v objs').1.
Proof.
  revert objs objs'. induction v as [| s | v0 IH0 v1 IH1]; intros objs objs'; simpl.
  - done.
  - done.
  - specialize (IH0 objs objs').
    destruct (jsSexpToGitSexp v0 objs) as [car objs1],
             (jsSexpToGitSexp v0 objs') as [car' objs1'].
    specialize (IH1 objs1 objs1').
    destruct (jsSexpToGitSexp v1 objs1) as [cdr objs2],
             (jsSexpToGitSexp v1 objs1') as [cdr' objs2'].
    simpl in *. by subst.
Qed.

Lemma jsSexpToGitSexp_subseteq (v : JsSexp) (objs : gmap Oid GitObject) :
  objs ⊆ (jsSexpToGitSexp v objs).2.
Proof.
  revert objs. induction v as [| s | v0 IH0 v1 IH1]; intros objs; simpl.
  - done.
  - apply writeObject_subseteq.
  - specialize (IH0 objs). destruct (jsSexpToGitSexp v0 objs) as [car objs1].
    specialize (IH1 objs1). destruct (jsSexpToGitSexp v1 objs1) as [cdr objs2].
    simpl in *. etrans; [exact IH0|]. etrans; [exact IH1|].
    apply writeObject_subseteq.
Qed.

Lemma jsSexpToGitSexp_store_ok (v : JsSexp) (objs : gmap Oid GitObject) :
  store_ok objs → store_ok (jsSexpToGitSexp v objs).2.
Proof.
  revert objs. induction v as [| s | v0 IH0 v1 IH1]; intros objs Hok; simpl.
  - done.
  - by apply writeObject_store_ok.
  - specialize (IH0 objs Hok). destruct (jsSexpToGitSexp v0 objs) as [car objs1].
    specialize (IH1 objs1 IH0). destruct (jsSexpToGitSexp v1 objs1) as [cdr objs2].
    simpl in *. by apply writeObject_store_ok.
Qed.

(** The id of an encoded value, by the shape of the value. *)
Lemma oid_of_encode_cons (v0 v1 : JsSexp) (objs : gmap Oid GitObject) :
  oid_of (jsSexpToGitSexp (JsCons v0 v1) objs).1
  = hash (Tree (consTree (jsSexpToGitSexp v0 objs).1 (jsSexpToGitSexp v1 objs).1)).
Proof.
  simpl. destruct (jsSexpToGitSexp v0 objs) as [car objs1].
  pose proof (jsSexpToGitSexp_fst_indep v1 objs1 objs) as Hi.
  destruct (jsSexpToGitSexp v1 objs1) as [cdr objs2] eqn:E1.
  simpl in *. by rewrite <- Hi.
Qed.

Lemma isWellFormedSexp_encode `{Hasher} (v : JsSexp) (objs : gmap Oid GitObject) :
  isWellFormedSexp (gitSexpToJsSexp (jsSexpToGitSexp v objs).1) = isWellFormedSexp v.
Proof.
  revert objs. induction v as [| s | v0 IH0 v1 IH1]; intros objs; simpl; try done.
  specialize (IH0 objs). destruct (jsSexpToGitSexp v0 objs) as [car objs1].
  specialize (IH1 objs1). destruct (jsSexpToGitSexp v1 objs1) as [cdr objs2].
  simpl in *. by rewrite IH0, IH1.
Qed.

(** Replacing the unpaired surrogates of a value changes no id. *)
Lemma toWellFormedSexp_id (v : JsSexp) :
  isWellFormedSexp v = true ↔ toWellFormedSexp v = v.
Proof.
  induction v as [| s | v0 IH0 v1 IH1]; simpl.
  - done.
  - rewrite toWellFormed_id. split; [by intros ->|by intros [= ->]].
  - rewrite andb_true_iff, IH0, IH1. split; [by intros [-> ->]|by intros [= -> ->]].
Qed.

Lemma oid_of_toWellFormedExpression (sexp : GitSexpExpression) :
  oid_of (toWellFormedExpression sexp) = oid_of sexp.
Proof. by destruct sexp. Qed.

Lemma consTree_toWellFormedExpression (car cdr : GitSexpExpression) :
  consTree (toWellFormedExpression car) (toWellFormedExpression cdr) = consTree car cdr.
Proof. by destruct car, cdr. Qed.

Lemma jsSexpToGitSexp_toWellFormedSexp (v : JsSexp) (objs objs' : gmap Oid GitObject) :
  (jsSexpToGitSexp (toWellFormedSexp v) objs).1
  = toWellFormedExpression (jsSexpToGitSexp v objs').1.
Proof.
  revert objs objs'. induction v as [| s | v0 IH0 v1 IH1]; intros objs objs'; simpl.
  - done.
  - unfold writeGitSexpAtom, git_writeBlob, writeObject; simpl.
    by rewrite Buffer_from_toWellFormed.
  - specialize (IH0 objs objs').
    destruct (jsSexpToGitSexp (toWellFormedSexp v0) objs) as [car objs1],
             (jsSexpToGitSexp v0 objs') as [car' objs1'].
    specialize (IH1 objs1 objs1').
    destruct (jsSexpToGitSexp (toWellFormedSexp v1) objs1) as [cdr objs2],
             (jsSexpToGitSexp v1 objs1') as [cdr' objs2'].
    simpl in *. subst. by destruct car', cdr'.
Qed.

Section ContentAddressing.
Hypothesis hash_inj : ∀ x y : GitObject, hash x = hash y → x = y.
Hypothesis hash_empty_tree : hash (Tree []) = GitSexpEmptyValue_oid.

Lemma writeObject_lookup (obj : GitObject) (objs : gmap Oid GitObject) :
  store_ok objs → (writeObject obj objs).2 !! hash obj = Some obj.
Proof.
  intros Hok. unfold writeObject; simpl. destruct (objs !! hash obj) eqn:Hl.
  - rewrite Hl. f_equal. apply hash_inj. by apply Hok.
  - by rewrite lookup_insert_eq.
Qed.

Lemma hash_blob_not_empty (b : list Byte.byte) : hash (Blob b) ≠ GitSexpEmptyValue_oid.
Proof. rewrite <- hash_empty_tree. intros Heq. by apply hash_inj in Heq. Qed.

Lemma hash_consTree_not_empty (car cdr : GitSexpExpression) :
  hash (Tree (consTree car cdr)) ≠ GitSexpEmptyValue_oid.
Proof. rewrite <- hash_empty_tree. intros Heq. by apply hash_inj in Heq. Qed.


Lemma encode_oid_inj (v1 v2 : JsSexp) (objs1 objs2 : gmap Oid GitObject) :
  oid_of (jsSexpToGitSexp v1 objs1).1 = oid_of (jsSexpToGitSexp v2 objs2).1 →
  toWellFormedSexp v1 = toWellFormedSexp v2.
Proof.
  revert v2 objs1 objs2.
  induction v1 as [| s1 | a1 IHa b1 IHb]; intros [| s2 | a2 b2] objs1 objs2;
    try rewrite !oid_of_encode_cons; simpl; intros Heq; try done.
  all: try (exfalso;
            first [ by apply symmetry, hash_blob_not_empty in Heq
                  | by apply symmetry, hash_consTree_not_empty in Heq
                  | by apply hash_blob_not_empty in Heq
                  | by apply hash_consTree_not_empty in Heq
                  | by apply hash_inj in Heq ]).
  - apply hash_inj in Heq. injection Heq as Hb. by apply Buffer_from_eq_iff in Hb as ->.
  - apply hash_inj in Heq. injection Heq as _ Hb _ _ Ha _.
    f_equal; [by eapply IHa | by eapply IHb].
Qed.

(** C2, as the code has it: under injective content hashing, two encoded
    values have the same id exactly when they are equal once every
    unpaired surrogate in their strings is replaced by U+FFFD, which is
    what [Buffer.from] does before the bytes are hashed.  For values whose
    strings are well formed that is: exactly when the values are equal.
    The stores the two encodings run in do not matter. *)
Theorem encode_oid_eq_iff (v1 v2 : JsSexp) (objs1 objs2 : gmap Oid GitObject) :
  (oid_of (jsSexpToGitSexp v1 objs1).1 = oid_of (jsSexpToGitSexp v2 objs2).1
   ↔ toWellFormedSexp v1 = toWellFormedSexp v2)
  ∧ (isWellFormedSexp v1 = true → isWellFormedSexp v2 = true →
     (oid_of (jsSexpToGitSexp v1 objs1).1 = oid_of (jsSexpToGitSexp v2 objs2).1
      ↔ v1 = v2)).
Proof.
  assert (oid_of (jsSexpToGitSexp v1 objs1).1 = oid_of (jsSexpToGitSexp v2 objs2).1
          ↔ toWellFormedSexp v1 = toWellFormedSexp v2) as Hiff.
  { split; [apply encode_oid_inj|]. intros Heq.
    rewrite <- (oid_of_toWellFormedExpression (jsSexpToGitSexp v1 objs1).1).
    rewrite <- (oid_of_toWellFormedExpression (jsSexpToGitSexp v2 objs2).1).
    rewrite <- !(jsSexpToGitSexp_toWellFormedSexp _ objs1). by rewrite Heq. }
  split; [done|]. intros H1%toWellFormedSexp_id H2%toWellFormedSexp_id.
  by rewrite Hiff, H1, H2.
Qed.
End ContentAddressing.
End StoreFacts.

(** ** Lazy tree reader *)

Lemma insertEntry_Sorted (e : TreeEntry) (l : list TreeEntry) :
  Sorted leb_path l → Sorted leb_path (insertEntry e l).
Proof.
  induction 1 as [|x l Hs IH Hhd]; simpl.
  - by repeat constructor.
  - destruct (String.leb (entry_path e) (entry_path x)) eqn:Hle.
    + constructor; [by constructor|]. by constructor.
    + constructor; [done|].
      assert (leb_path x e) as Hxe.
      { destruct (String.leb_total (entry_path e) (entry_path x)) as [Ht|Ht]; [congruence|done]. }
      destruct Hhd as [|y l' Hxy]; simpl; [by constructor|].
      destruct (String.leb (entry_path e) (entry_path y)); by constructor.
Qed.

Lemma sortEntries_Sorted (l : list TreeEntry) : Sorted leb_path (sortEntries l).
Proof.
  induction l as [|e l IH]; simpl; [constructor|]. by apply insertEntry_Sorted.
Qed.

(** A listing that passes [isValidGitSexpConsObject] and came out of the
    store sorted is "car" followed by "cdr". *)
Lemma sorted_cons_listing (t : list TreeEntry) :
  Sorted leb_path t →
  length t = 2 →
  existsb (λ entry, String.eqb (entry_path entry) "car") t = true →
  existsb (λ entry, String.eqb (entry_path entry) "cdr") t = true →
  ∃ ce de, t = [ce; de] ∧ entry_path ce = "car" ∧ entry_path de = "cdr".
Proof.
  intros Hs Hlen Hcar Hcdr.
  destruct t as [|x [|y [|z t]]]; try done.
  exists x, y. simpl in Hcar, Hcdr. rewrite orb_false_r in Hcar, Hcdr.
  apply Sorted_inv in Hs as [_ Hhd]. apply HdRel_inv in Hhd. unfold leb_path in Hhd.
  apply orb_true_iff in Hcar as [Hc|Hc]; apply orb_true_iff in Hcdr as [Hd|Hd];
    apply String.eqb_eq in Hc, Hd.
  - congruence.
  - done.
  - rewrite Hc, Hd in Hhd. discriminate Hhd.
  - congruence.
Qed.

Lemma readGitSexpExpression_S (fuel : nat) (objs : gmap Oid GitObject) (oid : Oid) :
  readGitSexpExpression (S fuel) objs oid
  = if decide (oid = GitSexpEmptyValue_oid) then Some (Ok GitSexpEmpty)
    else if isGitSexpAtomOid objs oid then Some (readGitSexpAtom objs oid)
    else
      await* consLazy := readGitSexpConsLazy fuel objs oid in
      await* car :=
        match lazy_car consLazy with
        | Some l =>
            await* e := readGitSexpExpression fuel objs (oid_of_lazy l) in
            Some (Ok (Some e))
        | None => Some (Ok None)
        end in
      await* cdr :=
        match lazy_cdr consLazy with
        | Some l =>
            await* e := readGitSexpExpression fuel objs (oid_of_lazy l) in
            Some (Ok (Some e))
        | None => Some (Ok None)
        end in
      Some (Ok (GitSexpCons (default GitSexpEmpty car) (default GitSexpEmpty cdr) oid)).
Proof. reflexivity. Qed.

Lemma consListing_spec (t : list TreeEntry) :
  Sorted leb_path t →
  consListing t = true ↔ ∃ ce de, t = [ce; de] ∧ entry_path ce = "car" ∧ entry_path de = "cdr".
Proof.
  intros Hs. unfold consListing. split.
  - intros Hv. apply andb_true_iff in Hv as [Hv Hcdr]. apply andb_true_iff in Hv as [Hlen Hcar].
    apply Nat.eqb_eq in Hlen. by apply sorted_cons_listing.
  - intros (ce & de & -> & Hc & Hd). simpl. by rewrite Hc, Hd.
Qed.

(** What one step of the reader does, by the object found under the id. *)
Lemma read_empty (fuel : nat) (objs : gmap Oid GitObject) :
  readGitSexpExpression (S fuel) objs GitSexpEmptyValue_oid = Some (Ok GitSexpEmpty).
Proof. rewrite readGitSexpExpression_S. by rewrite decide_True. Qed.

Lemma read_missing (fuel : nat) (objs : gmap Oid GitObject) (oid : Oid) :
  oid ≠ GitSexpEmptyValue_oid → objs !! oid = None →
  readGitSexpExpression (S fuel) objs oid = Some (Throw NotFound).
Proof.
  intros Hne Hl. rewrite readGitSexpExpression_S, decide_False by done.
  unfold isGitSexpAtomOid, readGitSexpConsLazy, git_readObject.
  by rewrite decide_False, Hl by done.
Qed.

Lemma read_blob (fuel : nat) (objs : gmap Oid GitObject) (oid : Oid) (b : list Byte.byte) :
  oid ≠ GitSexpEmptyValue_oid → objs !! oid = Some (Blob b) →
  readGitSexpExpression (S fuel) objs oid
  = Some (Ok (GitSexpAtom (Buffer_toString b) oid)).
Proof.
  intros Hne Hl. rewrite readGitSexpExpression_S, decide_False by done.
  unfold isGitSexpAtomOid, readGitSexpAtom, git_readObject.
  by rewrite decide_False, Hl by done.
Qed.

Lemma read_commit (fuel : nat) (objs : gmap Oid GitObject) (oid : Oid) (c : CommitObject) :
  oid ≠ GitSexpEmptyValue_oid → objs !! oid = Some (Commit c) →
  readGitSexpExpression (S fuel) objs oid
  = await* _ := git_readTree fuel objs oid in Some (Throw InvalidObject).
Proof.
  intros Hne Hl. rewrite readGitSexpExpression_S, decide_False by done.
  unfold isGitSexpAtomOid, readGitSexpConsLazy, git_readObject.
  rewrite decide_False, Hl by done. simpl.
  by destruct (git_readTree fuel objs oid) as [[t|e]|].
Qed.

Lemma read_tree_invalid (fuel : nat) (objs : gmap Oid GitObject) (oid : Oid)
    (es : list TreeEntry) :
  oid ≠ GitSexpEmptyValue_oid → objs !! oid = Some (Tree es) →
  consListing (sortEntries es) = false →
  readGitSexpExpression (S fuel) objs oid = Some (Throw InvalidObject).
Proof.
  intros Hne Hl Hv. rewrite readGitSexpExpression_S, decide_False by done.
  unfold isGitSexpAtomOid, readGitSexpConsLazy, git_readObject.
  rewrite decide_False, Hl by done. simpl.
  unfold isValidGitSexpConsObject, ro_tree; simpl.
  unfold consListing in Hv.
  destruct (length (sortEntries es) =? 2)%nat; simpl in *; [|done].
  by rewrite Hv.
Qed.

Lemma read_tree_cons (fuel : nat) (objs : gmap Oid GitObject) (oid : Oid)
    (es : list TreeEntry) (ce de : TreeEntry) :
  oid ≠ GitSexpEmptyValue_oid → objs !! oid = Some (Tree es) →
  sortEntries es = [ce; de] → entry_path ce = "car" → entry_path de = "cdr" →
  readGitSexpExpression (S fuel) objs oid
  = await* car := readGitSexpExpression fuel objs (entry_oid ce) in
    await* cdr := readGitSexpExpression fuel objs (entry_oid de) in
    Some (Ok (GitSexpCons car cdr oid)).
Proof.
  intros Hne Hl Hs Hc Hd. rewrite readGitSexpExpression_S, decide_False by done.
  unfold isGitSexpAtomOid, readGitSexpConsLazy, git_readObject.
  rewrite decide_False, Hl by done. simpl.
  unfold isValidGitSexpConsObject, ro_tree; simpl.
  rewrite Hs; simpl. rewrite Hc, Hd; simpl. rewrite !oid_of_lazyOfEntry.
  destruct (readGitSexpExpression fuel objs (entry_oid ce)) as [[c|e]|]; simpl; try done.
  by destruct (readGitSexpExpression fuel objs (entry_oid de)) as [[d|e]|].
Qed.

Lemma bindF_Some_Ok {A B} (r : Fueled A) (k : A → Fueled B) (b : B) :
  bindF r k = Some (Ok b) → ∃ a, r = Some (Ok a) ∧ k a = Some (Ok b).
Proof. destruct r as [[a|e]|]; simpl; [eauto|done|done]. Qed.

Lemma git_readTree_mono (n m : nat) (objs : gmap Oid GitObject) (oid : Oid)
    (r : Result (list TreeEntry)) :
  git_readTree n objs oid = Some r → (n ≤ m)%nat → git_readTree m objs oid = Some r.
Proof.
  revert m oid. induction n as [|n IH]; intros m oid Hr Hle; [done|].
  destruct m as [|m]; [lia|]. simpl in *.
  case_decide; [done|].
  destruct (objs !! oid) as [[b|es|c]|]; try done.
  apply IH; [done|lia].
Qed.

Lemma read_case (objs : gmap Oid GitObject) (oid : Oid) : ReadCase objs oid.
Proof.
  destruct (decide (oid = GitSexpEmptyValue_oid)) as [He|Hne]; [by apply case_empty|].
  destruct (objs !! oid) as [[b|es|c]|] eqn:Hl.
  - by eapply case_blob.
  - destruct (consListing (sortEntries es)) eqn:Hv; [|by eapply case_invalid].
    destruct (sortEntries es) as [|ce [|de [|x t]]] eqn:Hs; try done.
    assert (entry_path ce = "car" ∧ entry_path de = "cdr") as [Hc Hd].
    { pose proof (sortEntries_Sorted es) as Hsorted. rewrite Hs in Hsorted.
      apply (consListing_spec _ Hsorted) in Hv as (ce' & de' & [= <- <-] & Hc & Hd).
      done. }
    by eapply case_cons.
  - by eapply case_commit.
  - by apply case_missing.
Qed.

(** Case analysis on what the reader finds under [oid]. *)
Ltac read_cases objs oid :=
  destruct (read_case objs oid)
    as [He|Hne Hl|b Hne Hl|c Hne Hl|es Hne Hl Hv|es ce de Hne Hl Hs Hc Hd].

Lemma readGitSexpExpression_mono (n m : nat) (objs : gmap Oid GitObject) (oid : Oid)
    (r : Result GitSexpExpression) :
  readGitSexpExpression n objs oid = Some r → (n ≤ m)%nat →
  readGitSexpExpression m objs oid = Some r.
Proof.
  revert m oid r. induction n as [|n IH]; intros m oid r Hr Hle; [done|].
  destruct m as [|m]; [lia|]. assert (n ≤ m)%nat as Hnm by lia.
  read_cases objs oid.
  - subst. rewrite read_empty in Hr. by rewrite read_empty.
  - rewrite (read_missing n _ _ Hne Hl) in Hr. by rewrite (read_missing m _ _ Hne Hl).
  - rewrite (read_blob n _ _ _ Hne Hl) in Hr. by rewrite (read_blob m _ _ _ Hne Hl).
  - rewrite (read_commit n _ _ _ Hne Hl) in Hr. rewrite (read_commit m _ _ _ Hne Hl).
    destruct (git_readTree n objs oid) as [x|] eqn:Ht; [|done].
    by rewrite (git_readTree_mono _ _ _ _ _ Ht Hnm).
  - rewrite (read_tree_invalid n _ _ _ Hne Hl Hv) in Hr.
    by rewrite (read_tree_invalid m _ _ _ Hne Hl Hv).
  - rewrite (read_tree_cons n _ _ _ _ _ Hne Hl Hs Hc Hd) in Hr.
    rewrite (read_tree_cons m _ _ _ _ _ Hne Hl Hs Hc Hd).
    destruct (readGitSexpExpression n objs (entry_oid ce)) as [x|] eqn:H1; [|done].
    rewrite (IH _ _ _ H1 Hnm). destruct x as [car|e]; [|done]. simpl in *.
    destruct (readGitSexpExpression n objs (entry_oid de)) as [y|] eqn:H2; [|done].
    by rewrite (IH _ _ _ H2 Hnm).
Qed.

Lemma readGitSexpExpression_det (n m : nat) (objs : gmap Oid GitObject) (oid : Oid)
    (r r' : Result GitSexpExpression) :
  readGitSexpExpression n objs oid = Some r →
  readGitSexpExpression m objs oid = Some r' → r = r'.
Proof.
  intros Hn Hm.
  apply (readGitSexpExpression_mono _ (n `max` m)) in Hn; [|lia].
  apply (readGitSexpExpression_mono _ (n `max` m)) in Hm; [|lia].
  congruence.
Qed.

(** A successful read only looks at objects that are there, so it is
    unchanged when the store grows. *)
Lemma readGitSexpExpression_subseteq (n : nat) (objs objs' : gmap Oid GitObject)
    (oid : Oid) (sexp : GitSexpExpression) :
  objs ⊆ objs' →
  readGitSexpExpression n objs oid = Some (Ok sexp) →
  readGitSexpExpression n objs' oid = Some (Ok sexp).
Proof.
  intros Hsub. revert oid sexp. induction n as [|n IH]; intros oid sexp Hr; [done|].
  read_cases objs oid.
  - subst. by rewrite read_empty in *.
  - by rewrite (read_missing _ _ _ Hne Hl) in Hr.
  - rewrite (read_blob _ _ _ _ Hne Hl) in Hr.
    by rewrite (read_blob _ _ _ b Hne (lookup_weaken _ _ _ _ Hl Hsub)).
  - rewrite (read_commit _ _ _ _ Hne Hl) in Hr.
    by destruct (git_readTree n objs oid) as [[x|e]|].
  - by rewrite (read_tree_invalid _ _ _ _ Hne Hl Hv) in Hr.
  - rewrite (read_tree_cons _ _ _ _ _ _ Hne Hl Hs Hc Hd) in Hr.
    rewrite (read_tree_cons _ _ _ _ _ _ Hne (lookup_weaken _ _ _ _ Hl Hsub) Hs Hc Hd).
    apply bindF_Some_Ok in Hr as (car & H1 & Hr).
    apply bindF_Some_Ok in Hr as (cdr & H2 & Hr).
    by rewrite (IH _ _ H1), (IH _ _ H2).
Qed.

Lemma Stored_subseteq (objs objs' : gmap Oid GitObject) (sexp : GitSexpExpression) :
  objs ⊆ objs' → Stored objs sexp → Stored objs' sexp.
Proof. intros Hsub [n Hn]. exists n. by eapply readGitSexpExpression_subseteq. Qed.

(** The strings the reader returns are well formed, whatever bytes the
    store holds. *)
Lemma readGitSexpExpression_isWellFormed (n : nat) (objs : gmap Oid GitObject)
    (oid : Oid) (sexp : GitSexpExpression) :
  readGitSexpExpression n objs oid = Some (Ok sexp) →
  isWellFormedSexp (gitSexpToJsSexp sexp) = true.
Proof.
  revert oid sexp. induction n as [|n IH]; intros oid sexp Hr; [done|].
  read_cases objs oid.
  - subst. rewrite read_empty in Hr. by injection Hr as <-.
  - by rewrite (read_missing _ _ _ Hne Hl) in Hr.
  - rewrite (read_blob _ _ _ _ Hne Hl) in Hr. injection Hr as <-.
    apply isWellFormed_Buffer_toString.
  - rewrite (read_commit _ _ _ _ Hne Hl) in Hr.
    by destruct (git_readTree n objs oid) as [[x|e]|].
  - by rewrite (read_tree_invalid _ _ _ _ Hne Hl Hv) in Hr.
  - rewrite (read_tree_cons _ _ _ _ _ _ Hne Hl Hs Hc Hd) in Hr.
    apply bindF_Some_Ok in Hr as (car & H1 & Hr).
    apply bindF_Some_Ok in Hr as (cdr & H2 & Hr).
    injection Hr as <-. simpl. by rewrite (IH _ _ H1), (IH _ _ H2).
Qed.

Lemma Stored_isWellFormed (objs : gmap Oid GitObject) (sexp : GitSexpExpression) :
  Stored objs sexp → isWellFormedSexp (gitSexpToJsSexp sexp) = true.
Proof. intros [n Hn]. by eapply readGitSexpExpression_isWellFormed. Qed.

(** A stored pair is read back from a tree whose two entries carry the ids
    of its car and cdr, and both are stored. *)
Lemma Stored_cons_inv (objs : gmap Oid GitObject) (car cdr : GitSexpExpression) (oid : Oid) :
  Stored objs (GitSexpCons car cdr oid) →
  oid ≠ GitSexpEmptyValue_oid
  ∧ ∃ es ce de, objs !! oid = Some (Tree es) ∧ sortEntries es = [ce; de]
      ∧ entry_path ce = "car" ∧ entry_path de = "cdr"
      ∧ ∃ n, readGitSexpExpression n objs (entry_oid ce) = Some (Ok car)
             ∧ readGitSexpExpression n objs (entry_oid de) = Some (Ok cdr).
Proof.
  intros [[|n] Hr]; [done|]. change (oid_of (GitSexpCons car cdr oid)) with oid in Hr.
  read_cases objs oid.
  - subst. by rewrite read_empty in Hr.
  - by rewrite (read_missing _ _ _ Hne Hl) in Hr.
  - by rewrite (read_blob _ _ _ _ Hne Hl) in Hr.
  - rewrite (read_commit _ _ _ _ Hne Hl) in Hr.
    by destruct (git_readTree n objs oid) as [[x|e]|].
  - by rewrite (read_tree_invalid _ _ _ _ Hne Hl Hv) in Hr.
  - rewrite (read_tree_cons _ _ _ _ _ _ Hne Hl Hs Hc Hd) in Hr.
    apply bindF_Some_Ok in Hr as (car' & H1 & Hr).
    apply bindF_Some_Ok in Hr as (cdr' & H2 & Hr).
    injection Hr as -> ->. split; [done|]. exists es, ce, de. eauto 10.
Qed.

Lemma GitSexpCons_neq_cdr (car cdr : GitSexpExpression) (oid : Oid) :
  cdr ≠ GitSexpCons car cdr oid.
Proof.
  revert car oid. induction cdr as [| v o | a IHa b IHb o]; intros car oid Heq; try done.
  injection Heq as -> Hb ->. by eapply IHb.
Qed.

Section Prepend.
Context `{Hasher}.
Hypothesis hash_inj : ∀ x y : GitObject, hash x = hash y → x = y.
Hypothesis hash_empty_tree : hash (Tree []) = GitSexpEmptyValue_oid.

Lemma writeGitSexpAtom_eq (str : JsString) (objs : gmap Oid GitObject) :
  writeGitSexpAtom str objs
  = (GitSexpAtom str (hash (Blob (Buffer_from str))),
     (writeObject (Blob (Buffer_from str)) objs).2).
Proof. reflexivity. Qed.

Lemma writeGitSexpCons_eq (car cdr : GitSexpExpression) (objs : gmap Oid GitObject) :
  writeGitSexpCons car cdr objs
  = (GitSexpCons car cdr (hash (Tree (consTree car cdr))),
     (writeObject (Tree (consTree car cdr)) objs).2).
Proof. reflexivity. Qed.

(** An atom is read back with its unpaired surrogates replaced. *)
Lemma read_writeGitSexpAtom (fuel : nat) (str : JsString) (objs : gmap Oid GitObject) :
  store_ok objs →
  readGitSexpExpression (S fuel) (writeGitSexpAtom str objs).2
    (oid_of (writeGitSexpAtom str objs).1)
  = Some (Ok (toWellFormedExpression (writeGitSexpAtom str objs).1)).
Proof.
  intros Hok. rewrite writeGitSexpAtom_eq. cbn [fst snd oid_of toWellFormedExpression].
  rewrite (read_blob fuel _ _ (Buffer_from str)).
  - by rewrite Buffer_toString_from.
  - by apply hash_blob_not_empty.
  - by apply writeObject_lookup.
Qed.

Lemma Stored_writeGitSexpAtom (str : JsString) (objs : gmap Oid GitObject) :
  store_ok objs →
  Stored (writeGitSexpAtom str objs).2 (toWellFormedExpression (writeGitSexpAtom str objs).1).
Proof.
  intros Hok. exists 1. rewrite oid_of_toWellFormedExpression.
  by apply read_writeGitSexpAtom.
Qed.

(** A pair is read back from the tree written for it, with whatever is
    read back from the ids of its two children. *)
Lemma Stored_consTree (car cdr car' cdr' : GitSexpExpression) (objs : gmap Oid GitObject) :
  store_ok objs → oid_of car' = oid_of car → oid_of cdr' = oid_of cdr →
  Stored objs car' → Stored objs cdr' →
  Stored (writeObject (Tree (consTree car cdr)) objs).2
    (GitSexpCons car' cdr' (hash (Tree (consTree car cdr)))).
Proof.
  intros Hok Ha Hd [n Hcar] [m Hcdr]. exists (S (n `max` m)). cbn [oid_of].
  pose proof (writeObject_subseteq (Tree (consTree car cdr)) objs) as Hsub.
  erewrite (read_tree_cons _ _ _ (consTree car cdr)); simpl; try done.
  - rewrite <- Ha, <- Hd.
    erewrite (readGitSexpExpression_subseteq _ objs); [|done|].
    2:{ eapply readGitSexpExpression_mono; [exact Hcar|lia]. }
    simpl. erewrite (readGitSexpExpression_subseteq _ objs); [done|done|].
    eapply readGitSexpExpression_mono; [exact Hcdr|lia].
  - by apply hash_consTree_not_empty.
  - by apply writeObject_lookup.
Qed.

(** Whatever the encoder returns can be read back from the store it
    leaves, with the unpaired surrogates of its strings replaced. *)
Lemma Stored_encode_toWellFormed (v : JsSexp) (objs : gmap Oid GitObject) :
  store_ok objs →
  Stored (jsSexpToGitSexp v objs).2 (toWellFormedExpression (jsSexpToGitSexp v objs).1).
Proof.
  revert objs. induction v as [| s | v0 IH0 v1 IH1]; intros objs Hok.
  - exists 1. apply read_empty.
  - by apply Stored_writeGitSexpAtom.
  - simpl. pose proof (jsSexpToGitSexp_store_ok v0 objs Hok) as Hok1.
    specialize (IH0 objs Hok). destruct (jsSexpToGitSexp v0 objs) as [car objs1].
    pose proof (jsSexpToGitSexp_store_ok v1 objs1 Hok1) as Hok2.
    pose proof (jsSexpToGitSexp_subseteq v1 objs1) as Hsub.
    specialize (IH1 objs1 Hok1). destruct (jsSexpToGitSexp v1 objs1) as [cdr objs2].
    rewrite writeGitSexpCons_eq. cbn [fst snd toWellFormedExpression] in *.
    apply Stored_consTree; try done; try apply oid_of_toWellFormedExpression.
    by eapply Stored_subseteq.
Qed.

Lemma toWellFormedExpression_encode (v : JsSexp) (objs : gmap Oid GitObject) :
  isWellFormedSexp v = true →
  toWellFormedExpression (jsSexpToGitSexp v objs).1 = (jsSexpToGitSexp v objs).1.
Proof.
  intros Hwf%toWellFormedSexp_id.
  rewrite <- (jsSexpToGitSexp_toWellFormedSexp v objs objs). by rewrite Hwf.
Qed.

(** A value whose strings are well formed is read back as it was
    encoded. *)
Lemma Stored_encode (v : JsSexp) (objs : gmap Oid GitObject) :
  isWellFormedSexp v = true → store_ok objs →
  Stored (jsSexpToGitSexp v objs).2 (jsSexpToGitSexp v objs).1.
Proof.
  intros Hwf Hok. rewrite <- (toWellFormedExpression_encode v objs Hwf).
  by apply Stored_encode_toWellFormed.
Qed.

(** A stored expression never sits under the id of a pair that has it as
    cdr. *)
Lemma prepend_oid_fresh (atom L : GitSexpExpression) (objs : gmap Oid GitObject) :
  store_ok objs → Stored objs L →
  hash (Tree (consTree atom L)) ≠ oid_of L.
Proof.
  intros Hok HL Heq. destruct L as [| v o | car cdr o]; simpl in Heq.
  - by apply hash_consTree_not_empty in Heq.
  - destruct HL as [[|n] Hr]; [done|]. simpl in Hr.
    read_cases objs o.
    + subst o. by apply hash_consTree_not_empty in Heq.
    + by rewrite (read_missing _ _ _ Hne Hl) in Hr.
    + apply Hok in Hl. rewrite <- Heq in Hl. by apply hash_inj in Hl.
    + apply Hok in Hl. rewrite <- Heq in Hl. by apply hash_inj in Hl.
    + by rewrite (read_tree_invalid _ _ _ _ Hne Hl Hv) in Hr.
    + rewrite (read_tree_cons _ _ _ _ _ _ Hne Hl Hs Hc Hd) in Hr.
      apply bindF_Some_Ok in Hr as (car' & H1 & Hr).
      by apply bindF_Some_Ok in Hr as (cdr' & H2 & Hr).
  - pose proof HL as [n Hread].
    apply Stored_cons_inv in HL as (Hne & es & ce & de & Hl & Hs & Hc & Hd & m & _ & Hcdr).
    pose proof (Hok _ _ Hl) as Hh. rewrite <- Heq in Hh. apply hash_inj in Hh.
    injection Hh as ->. injection Hs as _ <-. simpl in Hcdr, Hread.
    pose proof (readGitSexpExpression_det _ _ _ _ _ _ Hcdr Hread) as Hsame.
    injection Hsame as Hsame. by apply GitSexpCons_neq_cdr in Hsame.
Qed.

Lemma consStringOntoGitSexpExpression_eq (str : JsString) (L : GitSexpExpression)
    (objs : gmap Oid GitObject) :
  consStringOntoGitSexpExpression str L objs
  = (GitSexpCons (GitSexpAtom str (hash (Blob (Buffer_from str)))) L
       (hash (Tree (consTree (GitSexpAtom str (hash (Blob (Buffer_from str)))) L))),
     (writeObject (Tree (consTree (GitSexpAtom str (hash (Blob (Buffer_from str)))) L))
        (writeObject (Blob (Buffer_from str)) objs).2).2).
Proof. reflexivity. Qed.

(** C7: prepending a string to a stored list performs one blob write and
    one tree write; the result is the pair of the new atom and the list
    itself, under an id that differs from the list's; every other id of
    the store is untouched, the list is still read back from its id, and
    the flattened result is the string followed by the flattened list.
    Read back from its id, the result carries the string with its unpaired
    surrogates replaced: it is the result itself exactly when the string
    is well formed. *)
Theorem consStringOntoGitSexpExpression_spec (str : JsString) (L : GitSexpExpression)
    (objs : gmap Oid GitObject) :
  store_ok objs → Stored objs L →
  let atom := GitSexpAtom str (hash (Blob (Buffer_from str))) in
  let consOid := hash (Tree (consTree atom L)) in
  let result := (consStringOntoGitSexpExpression str L objs).1 in
  let objs' := (consStringOntoGitSexpExpression str L objs).2 in
  result = GitSexpCons atom L consOid
  ∧ objs' = (writeObject (Tree (consTree atom L))
               (writeObject (Blob (Buffer_from str)) objs).2).2
  ∧ objs' !! oid_of atom = Some (Blob (Buffer_from str))
  ∧ objs' !! consOid = Some (Tree (consTree atom L))
  ∧ dom objs' = {[ oid_of atom; consOid ]} ∪ dom objs
  ∧ (∀ oid, oid ≠ oid_of atom → oid ≠ consOid → objs' !! oid = objs !! oid)
  ∧ objs ⊆ objs'
  ∧ oid_of result ≠ oid_of L
  ∧ Stored objs' L
  ∧ Stored objs' (GitSexpCons (GitSexpAtom (toWellFormed str) (oid_of atom)) L consOid)
  ∧ (Stored objs' result ↔ isWellFormed str = true)
  ∧ (∀ l, to_sequence L = Ok l → to_sequence result = Ok (str :: l)).
Proof.
  intros Hok HL atom consOid result objs'. subst result objs'.
  rewrite consStringOntoGitSexpExpression_eq. cbn [fst snd]. fold atom. fold consOid.
  set (objs1 := (writeObject (Blob (Buffer_from str)) objs).2).
  assert (store_ok objs1) as Hok1 by by apply writeObject_store_ok.
  assert (objs ⊆ objs1) as Hsub1 by apply writeObject_subseteq.
  assert (objs1 ⊆ (writeObject (Tree (consTree atom L)) objs1).2) as Hsub2
    by apply writeObject_subseteq.
  assert (Stored (writeObject (Tree (consTree atom L)) objs1).2
            (GitSexpCons (GitSexpAtom (toWellFormed str) (oid_of atom)) L consOid))
    as Hread.
  { apply Stored_consTree; try done.
    - pose proof (Stored_writeGitSexpAtom str objs Hok) as Ha.
      by rewrite writeGitSexpAtom_eq in Ha.
    - by eapply Stored_subseteq. }
  split_and!; try done.
  - eapply lookup_weaken; [|exact Hsub2]. by apply writeObject_lookup.
  - by apply writeObject_lookup.
  - unfold objs1. rewrite !writeObject_dom. set_solver.
  - intros oid Ha Hc. rewrite writeObject_lookup_ne by done.
    unfold objs1. by rewrite writeObject_lookup_ne.
  - by etrans.
  - by apply (prepend_oid_fresh atom L objs).
  - eapply Stored_subseteq; [|done]. by etrans.
  - split.
    + intros Hst. apply Stored_isWellFormed in Hst. simpl in Hst.
      by apply andb_true_iff in Hst as [Hst _].
    + intros Hwf%toWellFormed_id. by rewrite Hwf in Hread.
  - intros l Hl. unfold to_sequence in *. simpl. by rewrite Hl.
Qed.

End Prepend.

Section FromSequence.
Context `{Hasher}.

(** C8: building a list from an array and flattening it gives the
    elements back, and two runs on arrays that hold the same elements end
    in the same root id, whatever the two stores held. *)
Theorem from_sequence_deterministic (items : list JsString)
    (a1 a2 : ArrayRef) (h1 h2 : ArrayHeap) (objs1 objs2 : gmap Oid GitObject) :
  h1 !! a1 = Some items → h2 !! a2 = Some items →
  ∃ L1 L2 h1' h2' objs1' objs2',
    from_sequence a1 h1 objs1 = Some (L1, h1', objs1')
    ∧ from_sequence a2 h2 objs2 = Some (L2, h2', objs2')
    ∧ to_sequence L1 = Ok items
    ∧ to_sequence L2 = Ok items
    ∧ oid_of L1 = oid_of L2.
Proof.
  intros H1 H2. unfold from_sequence.
  rewrite (stringArrayToConsList_spec _ _ _ H1), (stringArrayToConsList_spec _ _ _ H2).
  set (sexp := foldr (λ str list, JsCons (JsAtom str) list) JsEmptySexp items).
  pose proof (jsSexpToGitSexp_fst_indep sexp objs1 objs2) as Hi.
  pose proof (gitSexpToJsSexp_jsSexpToGitSexp sexp objs1) as Hd1.
  pose proof (gitSexpToJsSexp_jsSexpToGitSexp sexp objs2) as Hd2.
  destruct (jsSexpToGitSexp sexp objs1) as [L1 objs1'].
  destruct (jsSexpToGitSexp sexp objs2) as [L2 objs2'].
  simpl in *. exists L1, L2, (<[a1 := rev items]> h1), (<[a2 := rev items]> h2), objs1', objs2'.
  split_and!; try done.
  - unfold to_sequence. rewrite Hd1.
    apply consListToStringArray_proper, consList_ProperList.
  - unfold to_sequence. rewrite Hd2.
    apply consListToStringArray_proper, consList_ProperList.
  - by rewrite Hi.
Qed.
End FromSequence.

(** ** Rejection of malformed objects *)

(** C6, as the code has it: under any id but the empty expression's, an
    object that is not a blob is rejected with [InvalidObject] when it is a
    tree whose listing is not "car" followed by "cdr", and when it is a
    commit whose snapshot tree can be listed. *)
Theorem readGitSexpExpression_rejects (fuel : nat) (objs : gmap Oid GitObject)
    (oid : Oid) (obj : GitObject) :
  oid ≠ GitSexpEmptyValue_oid →
  objs !! oid = Some obj →
  (∀ b, obj ≠ Blob b) →
  (∀ es ce de, obj = Tree es → sortEntries es = [ce; de] →
               entry_path ce = "car" → entry_path de = "cdr" → False) →
  (∀ c, obj = Commit c → ∃ t, git_readTree fuel objs oid = Some (Ok t)) →
  readGitSexpExpression (S fuel) objs oid = Some (Throw InvalidObject).
Proof.
  intros Hne Hl Hblob Htree Hcommit.
  destruct (read_case objs oid) as [He|_ Hl'|b _ Hl'|c _ Hl'|es _ Hl' Hv|es ce de _ Hl' Hs Hc Hd];
    try done; rewrite Hl in Hl'.
  - done.
  - injection Hl' as ->. by destruct (Hblob b).
  - injection Hl' as ->. rewrite (read_commit _ _ _ c Hne Hl).
    destruct (Hcommit c eq_refl) as [t ->]. done.
  - injection Hl' as ->. by apply (read_tree_invalid _ _ _ es).
  - injection Hl' as ->. by destruct (Htree es ce de).
Qed.

(** A composite whose entries are named "foo" and "bar" is rejected. *)
Lemma readGitSexpExpression_rejects_witness :
  readGitSexpExpression 1
    {[ "1234" := Tree [ {| entry_mode := "100644"; entry_path := "foo";
                           entry_oid := "aa"; entry_type := blob |};
                        {| entry_mode := "100644"; entry_path := "bar";
                           entry_oid := "bb"; entry_type := blob |} ] ]}
    "1234"
  = Some (Throw InvalidObject).
Proof.
  apply (readGitSexpExpression_rejects 0 _ "1234"
           (Tree [ {| entry_mode := "100644"; entry_path := "foo";
                      entry_oid := "aa"; entry_type := blob |};
                   {| entry_mode := "100644"; entry_path := "bar";
                      entry_oid := "bb"; entry_type := blob |} ])).
  - discriminate.
  - reflexivity.
  - discriminate.
  - intros es ce de [= <-]. simpl. intros [= <- <-]. discriminate.
  - discriminate.
Defined.

(** C6, as stated, fails in two places.  Under the id of the empty
    expression the object is the empty tree, neither an atom nor a car/cdr
    pair, and the reader returns the empty expression.  And a commit whose
    snapshot tree is absent is refused by [git.readTree], with the store's
    [NotFound], before the shape test is reached. *)
Lemma readGitSexpExpression_rejection_gaps :
  (({[ GitSexpEmptyValue_oid := Tree [] ]} : gmap Oid GitObject) !! GitSexpEmptyValue_oid
   = Some (Tree [])
   ∧ consListing (sortEntries []) = false
   ∧ readGitSexpExpression 1 {[ GitSexpEmptyValue_oid := Tree [] ]} GitSexpEmptyValue_oid
     = Some (Ok GitSexpEmpty))
  ∧ readGitSexpExpression 3
      {[ "c1" := Commit {| commit_tree := "absent"; commit_parent := [];
                           commit_author := ("GitSexp", "git-sexp@localhost");
                           commit_timestamp := 0; commit_message := "Append messages" |} ]}
      "c1"
    = Some (Throw NotFound).
Proof. split_and!; reflexivity. Qed.

(** ** Termination of the reader *)

Lemma insertEntry_Permutation (e : TreeEntry) (l : list TreeEntry) :
  insertEntry e l ≡ₚ e :: l.
Proof.
  induction l as [|x l IH]; simpl; [done|].
  destruct (String.leb _ _); [done|]. rewrite IH. apply Permutation_swap.
Qed.

Lemma sortEntries_Permutation (l : list TreeEntry) : sortEntries l ≡ₚ l.
Proof.
  induction l as [|e l IH]; simpl; [done|].
  by rewrite insertEntry_Permutation, IH.
Qed.

Lemma refers_is_Some (objs : gmap Oid GitObject) (o o' : Oid) :
  refers objs o o' → o ∈ dom objs.
Proof. intros Hr. apply elem_of_dom. destruct Hr; eauto. Qed.

(** In a finite store, an id from which no cycle can be reached has only
    finite descents. *)
Lemma acyclic_from_Acc (objs : gmap Oid GitObject) (oid : Oid) :
  acyclic_from objs oid → Acc (λ o' o, refers objs o o') oid.
Proof.
  intros Hacyc.
  cut (∀ (k : nat) (V : gset Oid) (o : Oid),
         (size (dom objs ∖ V) < k)%nat →
         (∀ v, v ∈ V → tc (refers objs) v o) →
         acyclic_from objs o → Acc (λ o' o, refers objs o o') o).
  { intros Hcut. apply (Hcut (S (size (dom objs ∖ ∅))) ∅); [lia|set_solver|done]. }
  clear oid Hacyc. induction k as [|k IH]; intros V o Hsize HV Hacyc; [lia|].
  constructor. intros o' Href.
  assert (o ∉ V) as HoV.
  { intros Hin. by apply (Hacyc o), HV. }
  assert (o ∈ dom objs) as Hdom by by eapply refers_is_Some.
  apply (IH ({[o]} ∪ V)).
  - assert (dom objs ∖ ({[o]} ∪ V) ⊂ dom objs ∖ V) as Hsub by set_solver.
    apply subset_size in Hsub. lia.
  - intros v [Hv|Hv]%elem_of_union.
    + apply elem_of_singleton in Hv as ->. by apply tc_once.
    + eapply tc_r; [by apply HV|done].
  - intros x Hx. apply Hacyc. by eapply rtc_l.
Qed.

Lemma git_readTree_terminates (objs : gmap Oid GitObject) (oid : Oid) :
  Acc (λ o' o, refers objs o o') oid →
  ∃ n r, git_readTree n objs oid = Some r.
Proof.
  induction 1 as [oid _ IH].
  destruct (decide (oid = GitSexpEmptyValue_oid)) as [He|Hne].
  { exists 1. eexists. simpl. by rewrite decide_True. }
  destruct (objs !! oid) as [[b|es|c]|] eqn:Hl.
  - exists 1. eexists. simpl. by rewrite decide_False, Hl.
  - exists 1. eexists. simpl. by rewrite decide_False, Hl.
  - destruct (IH (commit_tree c)) as (n & r & Hr); [by eapply refers_tree|].
    exists (S n), r. simpl. by rewrite decide_False, Hl.
  - exists 1. eexists. simpl. by rewrite decide_False, Hl.
Qed.

Lemma read_terminates_Acc (objs : gmap Oid GitObject) (oid : Oid) :
  Acc (λ o' o, refers objs o o') oid →
  ∃ n r, readGitSexpExpression n objs oid = Some r.
Proof.
  intros Hacc. induction Hacc as [oid Hacc IH].
  read_cases objs oid.
  - subst. exists 1. eexists. apply read_empty.
  - exists 1. eexists. by apply read_missing.
  - exists 1. eexists. by eapply read_blob.
  - destruct (git_readTree_terminates objs oid) as (n & r & Hr); [by constructor|].
    exists (S n). rewrite (read_commit _ _ _ c Hne Hl), Hr. destruct r; simpl; eauto.
  - exists 1. eexists. by eapply read_tree_invalid.
  - assert (ce ∈ es ∧ de ∈ es) as [Hce Hde].
    { rewrite <- !(sortEntries_Permutation es), Hs. set_solver. }
    destruct (IH (entry_oid ce)) as (n1 & r1 & H1); [by eapply refers_entry|].
    destruct (IH (entry_oid de)) as (n2 & r2 & H2); [by eapply refers_entry|].
    exists (S (n1 `max` n2)).
    rewrite (read_tree_cons _ _ _ _ _ _ Hne Hl Hs Hc Hd).
    rewrite (readGitSexpExpression_mono _ (n1 `max` n2) _ _ _ H1) by lia.
    rewrite (readGitSexpExpression_mono _ (n1 `max` n2) _ _ _ H2) by lia.
    destruct r1, r2; simpl; eauto.
Qed.

(** C9: when no cycle of the object graph can be reached from an id, the
    recursive read of that id returns: with enough fuel it gives one and
    the same result, an expression read in full or an error. *)
Theorem readGitSexpExpression_terminates (objs : gmap Oid GitObject) (oid : Oid) :
  acyclic_from objs oid →
  ∃ n r, ∀ m, (n ≤ m)%nat → readGitSexpExpression m objs oid = Some r.
Proof.
  intros Hacyc.
  destruct (read_terminates_Acc objs oid) as (n & r & Hr).
  { by apply acyclic_from_Acc. }
  exists n, r. intros m Hm. by eapply readGitSexpExpression_mono.
Qed.

(** The hypothesis cannot be dropped: on a tree that names itself as its
    car, the reader never returns. *)
Lemma readGitSexpExpression_diverges_on_cycle (n : nat) :
  readGitSexpExpression n
    {[ "loop" := Tree [ {| entry_mode := "040000"; entry_path := "car";
                           entry_oid := "loop"; entry_type := tree |};
                        {| entry_mode := "040000"; entry_path := "cdr";
                           entry_oid := GitSexpEmptyValue_oid; entry_type := tree |} ] ]}
    "loop"
  = None.
Proof.
  induction n as [|n IH]; [done|].
  erewrite read_tree_cons; [| |reflexivity|reflexivity|reflexivity|reflexivity]; [|done].
  simpl. by rewrite IH.
Qed.

(** ** History manager *)

Lemma isRepoEmpty_iff `{Hasher} (r : Repo) :
  isRepoEmpty r = true ↔ repo_branches r = ∅.
Proof.
  unfold isRepoEmpty, git_listBranches. rewrite Nat.eqb_eq, length_fmap.
  rewrite <- map_to_list_empty_iff. by destruct (map_to_list (repo_branches r)).
Qed.




Section HistoryFacts.
Context `{Hasher}.

(** C4: from the uninitialized repository, the first call creates one
    bootstrap record, whose snapshot is the empty expression, and puts
    the history branch on it; the second call returns the repository as
    the first one left it. *)
Theorem setupGitSexpRepo_idempotent (t1 t2 : Z) :
  ∃ r oid c,
    setupGitSexpRepo t1 emptyRepo = Ok r
    ∧ setupGitSexpRepo t2 r = Ok r
    ∧ repo_objects r = {[ oid := Commit c ]}
    ∧ repo_branches r = {[ HISTORY_BRANCH := oid ]}
    ∧ commit_tree c = GitSexpEmptyValue_oid
    ∧ commit_parent c = []
    ∧ RecordChain (repo_objects r) oid [(oid, c)].
Proof.
  set (c := {| commit_tree := GitSexpEmptyValue_oid; commit_parent := [];
               commit_author := ("GitSexp", "git-sexp@localhost");
               commit_timestamp := t1; commit_message := "Initial commit" |}).
  set (cfg := <["user.email" := "git-sexp@localhost"]>
                (<["user.name" := "GitSexp"]> (<["gc.auto" := "0"]> (∅ : gmap string string)))).
  exists {| repo_head := Some HISTORY_BRANCH; repo_config := cfg;
            repo_objects := {[ hash (Commit c) := Commit c ]};
            repo_branches := {[ HISTORY_BRANCH := hash (Commit c) ]} |},
         (hash (Commit c)), c.
  split_and!; try done.
  apply chain_bootstrap; [|done]. apply lookup_singleton_eq.
Qed.

(** X25: idempotence holds from any state: a second call leaves whatever
    the first one returned. *)
Lemma setupGitSexpRepo_twice (t1 t2 : Z) (r r1 : Repo) :
  setupGitSexpRepo t1 r = Ok r1 → setupGitSexpRepo t2 r1 = Ok r1.
Proof.
  unfold setupGitSexpRepo.
  set (r' := git_setConfig "user.email" "git-sexp@localhost"
               (git_setConfig "user.name" "GitSexp"
                  (git_setConfig "gc.auto" "0" (git_init HISTORY_BRANCH r)))).
  intros Hr.
  assert (is_Some (repo_head r')) as [ref Href].
  { unfold r', git_init. simpl. destruct (repo_head r) eqn:Hh; simpl; eauto. }
  assert (repo_head r1 = Some ref ∧ repo_config r1 = repo_config r'
          ∧ repo_branches r1 ≠ ∅) as (Hh1 & Hc1 & Hb1).
  { destruct (isRepoEmpty r') eqn:He.
    - unfold git_commit in Hr. rewrite Href in Hr.
      assert (repo_config r' !! "user.name" = Some "GitSexp") as Hn.
      { unfold r'. simpl. rewrite lookup_insert_ne by done. apply lookup_insert_eq. }
      rewrite Hn in Hr.
      simpl in Hr. injection Hr as <-. simpl. split_and!; try done.
      apply insert_non_empty.
    - injection Hr as <-. split_and!; try done.
      intros Hb. apply isRepoEmpty_iff in Hb. congruence. }
  assert (git_setConfig "user.email" "git-sexp@localhost"
            (git_setConfig "user.name" "GitSexp"
               (git_setConfig "gc.auto" "0" (git_init HISTORY_BRANCH r1))) = r1) as ->.
  { unfold git_init. rewrite Hh1. unfold git_setConfig. simpl. rewrite Hc1.
    destruct r1 as [h1 c1 o1 b1]. simpl in *. f_equal. subst c1.
    apply map_eq. intros k.
    destruct (decide (k = "user.email")) as [->|]; [by rewrite !lookup_insert_eq|].
    rewrite !(lookup_insert_ne _ "user.email") by done.
    destruct (decide (k = "user.name")) as [->|]; [by rewrite !lookup_insert_eq|].
    rewrite !(lookup_insert_ne _ "user.name") by done.
    destruct (decide (k = "gc.auto")) as [->|]; [by rewrite !lookup_insert_eq|].
    by rewrite !lookup_insert_ne by done. }
  destruct (isRepoEmpty r1) eqn:He; [|done].
  by apply isRepoEmpty_iff in He.
Qed.
End HistoryFacts.

Section AppendFacts.
Context `{Hasher}.
Hypothesis hash_inj : ∀ x y : GitObject, hash x = hash y → x = y.
Hypothesis hash_empty_tree : hash (Tree []) = GitSexpEmptyValue_oid.








End AppendFacts.

(** ** The concrete hash is injective *)

Lemma unary_app_inj (n m : nat) (x y : list ascii) :
  replicate n "1"%char ++ "0"%char :: x = replicate m "1"%char ++ "0"%char :: y →
  n = m ∧ x = y.
Proof.
  revert m. induction n as [|n IH]; intros [|m]; simpl; intros Heq; try done.
  - by injection Heq.
  - injection Heq as Heq. by destruct (IH _ Heq) as [-> ->].
Qed.

Lemma frame_app_inj (a b r r' : list ascii) :
  frame a ++ r = frame b ++ r' → a = b ∧ r = r'.
Proof.
  unfold frame. rewrite <- !app_assoc. simpl. intros Heq.
  apply unary_app_inj in Heq as [Hlen Heq]. by apply app_inj_1 in Heq.
Qed.

Lemma list_ascii_of_string_inj (s1 s2 : string) :
  list_ascii_of_string s1 = list_ascii_of_string s2 → s1 = s2.
Proof.
  intros Heq. rewrite <- (string_of_list_ascii_of_string s1),
    <- (string_of_list_ascii_of_string s2). by rewrite Heq.
Qed.

Lemma frameS_app_inj (a b : string) (r r' : list ascii) :
  frameS a ++ r = frameS b ++ r' → a = b ∧ r = r'.
Proof.
  intros Heq. apply frame_app_inj in Heq as [Ha Hr].
  by apply list_ascii_of_string_inj in Ha.
Qed.

Lemma frameS_nonempty (a : string) : frameS a ≠ [].
Proof. unfold frameS, frame. by destruct (replicate _ _). Qed.

Lemma typeCode_inj (t t' : ObjectType) : typeCode t = typeCode t' → t = t'.
Proof. by destruct t, t'. Qed.

Lemma serEntry_app_inj (e e' : TreeEntry) (r r' : list ascii) :
  serEntry e ++ r = serEntry e' ++ r' → e = e' ∧ r = r'.
Proof.
  unfold serEntry. rewrite <- !app_assoc. intros Heq.
  apply frameS_app_inj in Heq as [Hm Heq].
  apply frameS_app_inj in Heq as [Hp Heq].
  apply frameS_app_inj in Heq as [Ho Heq].
  injection Heq as Ht Hr. apply typeCode_inj in Ht.
  destruct e, e'; simpl in *. by subst.
Qed.

Lemma serEntry_nonempty (e : TreeEntry) : serEntry e ≠ [].
Proof.
  unfold serEntry. intros Heq. apply app_eq_nil in Heq as [Heq _].
  by apply frameS_nonempty in Heq.
Qed.

Lemma concat_map_inj {A} (f : A → list ascii) (l l' : list A) :
  (∀ a b r r', f a ++ r = f b ++ r' → a = b ∧ r = r') →
  (∀ a, f a ≠ []) →
  concat (map f l) = concat (map f l') → l = l'.
Proof.
  intros Hpre Hne. revert l'. induction l as [|a l IH]; intros [|b l']; simpl; intros Heq.
  - done.
  - symmetry in Heq. apply app_eq_nil in Heq as [Heq _]. by apply Hne in Heq.
  - apply app_eq_nil in Heq as [Heq _]. by apply Hne in Heq.
  - apply Hpre in Heq as [-> Heq]. f_equal. by apply IH.
Qed.

Lemma map_ascii_of_byte_inj (b b' : list Byte.byte) :
  map ascii_of_byte b = map ascii_of_byte b' → b = b'.
Proof.
  revert b'. induction b as [|x b IH]; intros [|y b']; simpl; intros Heq; try done.
  injection Heq as Hx Heq. f_equal; [|by apply IH].
  rewrite <- (byte_of_ascii_of_byte x), <- (byte_of_ascii_of_byte y). by rewrite Hx.
Qed.

Lemma serialize_inj (x y : GitObject) : serialize x = serialize y → x = y.
Proof.
  destruct x as [b|es|c], y as [b'|es'|c'].
  - simpl. intros [= Heq]. f_equal. by apply map_ascii_of_byte_inj.
  - destruct es'; simpl; intros Heq; discriminate Heq.
  - simpl. intros Heq; discriminate Heq.
  - destruct es; simpl; intros Heq; discriminate Heq.
  - destruct es as [|e es], es' as [|e' es']; try (simpl; intros Heq; discriminate Heq).
    + done.
    + intros Heq. injection Heq as Heq. f_equal.
      apply (concat_map_inj serEntry (e :: es) (e' :: es'));
        [apply serEntry_app_inj|apply serEntry_nonempty|done].
  - destruct es; simpl; intros Heq; discriminate Heq.
  - simpl. intros Heq; discriminate Heq.
  - destruct es'; simpl; intros Heq; discriminate Heq.
  - simpl. intros Heq. injection Heq as Heq.
    apply frameS_app_inj in Heq as [Ht Heq].
    apply frameS_app_inj in Heq as [Hn Heq].
    apply frameS_app_inj in Heq as [He Heq].
    apply frameS_app_inj in Heq as [Hts Heq].
    apply frameS_app_inj in Heq as [Hm Heq].
    apply concat_map_inj in Heq; [|apply frameS_app_inj|apply frameS_nonempty].
    apply (inj pretty) in Hts.
    destruct c as [t p [n e] ts m], c' as [t' p' [n' e'] ts' m']; simpl in *. by subst.
Qed.

Lemma demoHash_inj (x y : GitObject) : @hash demoHash x = @hash demoHash y → x = y.
Proof.
  unfold hash, demoHash. intros Heq. apply serialize_inj.
  rewrite <- (list_ascii_of_string_of_list_ascii (serialize x)),
    <- (list_ascii_of_string_of_list_ascii (serialize y)). by rewrite Heq.
Qed.

Lemma demoHash_empty_tree : @hash demoHash (Tree []) = GitSexpEmptyValue_oid.
Proof. reflexivity. Qed.

(** ** The tests of the source, under the concrete hash *)

Example writes_and_reads_back_the_same_string :
  readGitSexpAtom (@writeGitSexpAtom demoHash (js "Hello, World!") ∅).2
    (oid_of (@writeGitSexpAtom demoHash (js "Hello, World!") ∅).1)
  = Ok (@writeGitSexpAtom demoHash (js "Hello, World!") ∅).1.
Proof. vm_compute. reflexivity. Qed.

Example writes_and_reads_back_the_empty_string :
  readGitSexpAtom (@writeGitSexpAtom demoHash [] ∅).2
    (oid_of (@writeGitSexpAtom demoHash [] ∅).1)
  = Ok (@writeGitSexpAtom demoHash [] ∅).1.
Proof. vm_compute. reflexivity. Qed.

Example throws_error_when_trying_to_read_invalid_OID :
  readGitSexpAtom ∅ "1234567890abcdef" = Throw NotFound.
Proof. reflexivity. Qed.

Example writes_and_reads_back_the_same_recursive_cons_structure :
  let testArrayCons :=
    JsCons (JsAtom (js "a")) (JsCons (JsAtom (js "b")) (JsCons (JsAtom (js "c"))
      (JsCons (JsAtom (js "d")) JsEmptySexp))) in
  let sexp := (@jsSexpToGitSexp demoHash testArrayCons ∅).1 in
  let objs := (@jsSexpToGitSexp demoHash testArrayCons ∅).2 in
  gitSexpToJsSexp sexp = testArrayCons
  ∧ (await* sexpFromOid := readGitSexpExpression 5 objs (oid_of sexp) in
     Some (Ok (gitSexpToJsSexp sexpFromOid))) = Some (Ok testArrayCons).
Proof. vm_compute. split; reflexivity. Qed.

(** The listing of a tree comes back sorted by path, whatever order the
    entries were stored in. *)
Example sortEntries_cdr_car :
  map entry_path
    (sortEntries [ {| entry_mode := "040000"; entry_path := "cdr";
                      entry_oid := "d"; entry_type := tree |};
                   {| entry_mode := "100644"; entry_path := "car";
                      entry_oid := "a"; entry_type := blob |} ])
  = ["car"; "cdr"].
Proof. reflexivity. Qed.

Example read_exampleStore :
  readGitSexpExpression 2 exampleStore "t1"
  = Some (Ok (GitSexpCons (GitSexpAtom (js "A") "a1") GitSexpEmpty "t1")).
Proof. vm_compute. reflexivity. Qed.

Example consListToStringArray_examples :
  consListToStringArray exampleList = Ok [js "A"; js "B"]
  ∧ consListToStringArray (JsAtom (js "A")) = Ok [js "A"]
  ∧ consListToStringArray (JsCons JsEmptySexp JsEmptySexp) = Throw NotAProperList
  ∧ consListToStringArray (JsCons (JsCons (JsAtom (js "A")) JsEmptySexp) JsEmptySexp)
    = Throw NotAProperList.
Proof. repeat split. Qed.

(** ** The statements on concrete data *)

Lemma encode_oid_eq_iff_witness :
  (oid_of (@jsSexpToGitSexp demoHash (JsCons (JsAtom (js "a")) JsEmptySexp) ∅).1
   = oid_of (@jsSexpToGitSexp demoHash (JsCons (JsAtom (js "b")) JsEmptySexp) ∅).1
   ↔ toWellFormedSexp (JsCons (JsAtom (js "a")) JsEmptySexp)
     = toWellFormedSexp (JsCons (JsAtom (js "b")) JsEmptySexp))
  ∧ (oid_of (@jsSexpToGitSexp demoHash (JsCons (JsAtom (js "a")) JsEmptySexp) ∅).1
     = oid_of (@jsSexpToGitSexp demoHash (JsCons (JsAtom (js "b")) JsEmptySexp) ∅).1
     ↔ JsCons (JsAtom (js "a")) JsEmptySexp = JsCons (JsAtom (js "b")) JsEmptySexp).
Proof.
  destruct (@encode_oid_eq_iff demoHash demoHash_inj demoHash_empty_tree
              (JsCons (JsAtom (js "a")) JsEmptySexp)
              (JsCons (JsAtom (js "b")) JsEmptySexp) ∅ ∅) as [Hnorm Hwf].
  split; [exact Hnorm|]. apply Hwf; reflexivity.
Defined.

(** C2, as stated, fails: the string that is the lone surrogate U+D800 and
    the string U+FFFD are different values, and under an injective hash
    their encodings have the same id, because [Buffer.from] gives both the
    bytes EF BF BD. *)
Lemma jsSexpToGitSexp_lone_surrogate :
  (∀ x y : GitObject, @hash demoHash x = @hash demoHash y → x = y)
  ∧ JsAtom [0xD800%N] ≠ JsAtom [0xFFFD%N]
  ∧ Buffer_from [0xD800%N] = [Byte.xef; Byte.xbf; Byte.xbd]
  ∧ Buffer_from [0xFFFD%N] = [Byte.xef; Byte.xbf; Byte.xbd]
  ∧ oid_of (@jsSexpToGitSexp demoHash (JsAtom [0xD800%N]) ∅).1
    = oid_of (@jsSexpToGitSexp demoHash (JsAtom [0xFFFD%N]) ∅).1.
Proof. split_and!; [apply demoHash_inj|discriminate|reflexivity..]. Qed.

Lemma setupGitSexpRepo_initialized `{Hasher} (t : Z) :
  ∃ r, setupGitSexpRepo t emptyRepo = Ok r
       ∧ store_ok (repo_objects r) ∧ initialized r.
Proof.
  set (c := {| commit_tree := GitSexpEmptyValue_oid; commit_parent := [];
               commit_author := ("GitSexp", "git-sexp@localhost");
               commit_timestamp := t; commit_message := "Initial commit" |}).
  exists {| repo_head := Some HISTORY_BRANCH;
            repo_config := <["user.email" := "git-sexp@localhost"]>
                             (<["user.name" := "GitSexp"]> (<["gc.auto" := "0"]> ∅));
            repo_objects := {[ hash (Commit c) := Commit c ]};
            repo_branches := {[ HISTORY_BRANCH := hash (Commit c) ]} |}.
  split_and!.
  - done.
  - intros oid obj. simpl. rewrite lookup_singleton_Some. by intros [<- <-].
  - split_and!; [done|by eexists|].
    exists (hash (Commit c)), c. simpl. by rewrite !lookup_singleton_eq.
Qed.

Lemma exampleSetup_ok :
  @store_ok demoHash (repo_objects exampleSetup) ∧ initialized exampleSetup.
Proof.
  unfold exampleSetup.
  destruct (@setupGitSexpRepo_initialized demoHash 0) as (r & -> & Hok & Hinit). done.
Qed.

Lemma exampleRepo_ok :
  @store_ok demoHash (repo_objects exampleRepo)
  ∧ initialized exampleRepo
  ∧ Stored (repo_objects exampleRepo) exampleEncoded.1.
Proof.
  destruct exampleSetup_ok as [Hok (Hh & Hn & tip & c & Hb & Hl & Hp & Ht)].
  split_and!.
  - by apply jsSexpToGitSexp_store_ok.
  - split_and!; try done. exists tip, c. split_and!; try done.
    eapply lookup_weaken; [exact Hl|]. apply jsSexpToGitSexp_subseteq.
  - by apply (@Stored_encode demoHash demoHash_inj demoHash_empty_tree).
Qed.


Lemma consStringOntoGitSexpExpression_spec_witness :
  to_sequence exampleEncoded.1 = Ok [js "A"; js "B"]
  ∧ to_sequence (@consStringOntoGitSexpExpression demoHash (js "X") exampleEncoded.1
                   exampleEncoded.2).1
    = Ok [js "X"; js "A"; js "B"]
  ∧ oid_of (@consStringOntoGitSexpExpression demoHash (js "X") exampleEncoded.1
              exampleEncoded.2).1
    ≠ oid_of exampleEncoded.1
  ∧ Stored (@consStringOntoGitSexpExpression demoHash (js "X") exampleEncoded.1
              exampleEncoded.2).2 exampleEncoded.1.
Proof.
  destruct exampleRepo_ok as (Hok & _ & Hst).
  destruct (@consStringOntoGitSexpExpression_spec demoHash demoHash_inj
              demoHash_empty_tree (js "X") exampleEncoded.1 exampleEncoded.2 Hok Hst)
    as (_ & _ & _ & _ & _ & _ & _ & Hfresh & HL & _ & _ & Hseq).
  assert (to_sequence exampleEncoded.1 = Ok [js "A"; js "B"]) as HAB by reflexivity.
  split_and!; [exact HAB|exact (Hseq _ HAB)|exact Hfresh|exact HL].
Defined.

Lemma from_sequence_deterministic_witness :
  ∃ L1 L2 h1' h2' objs1' objs2',
    @from_sequence demoHash 1%positive {[ 1%positive := [js "Hello"; js "World"; js "Foo"] ]} ∅
    = Some (L1, h1', objs1')
    ∧ @from_sequence demoHash 2%positive {[ 2%positive := [js "Hello"; js "World"; js "Foo"] ]}
        exampleEncoded.2
      = Some (L2, h2', objs2')
    ∧ to_sequence L1 = Ok [js "Hello"; js "World"; js "Foo"]
    ∧ to_sequence L2 = Ok [js "Hello"; js "World"; js "Foo"]
    ∧ oid_of L1 = oid_of L2.
Proof.
  apply (@from_sequence_deterministic demoHash [js "Hello"; js "World"; js "Foo"]);
    apply lookup_singleton_eq.
Defined.

Lemma exampleStore_refers (o o' : Oid) :
  refers exampleStore o o' → o = "t1" ∧ o' ≠ "t1".
Proof.
  unfold exampleStore. intros Hr.
  destruct Hr as [es e Hl He|c Hl|c p Hl Hp];
    apply lookup_insert_Some in Hl as [[<- Hl]|[_ Hl]];
    try apply lookup_singleton_Some in Hl as [<- Hl]; try done.
  injection Hl as <-. split; [done|].
  apply elem_of_cons in He as [->|He]; [done|].
  apply list_elem_of_singleton in He as ->. done.
Qed.

Lemma exampleStore_acyclic : acyclic_from exampleStore "t1".
Proof.
  intros o _ Hcyc.
  inversion Hcyc as [x y Hox|x y z Hox Hyz]; subst.
  - by apply exampleStore_refers in Hox as [-> Hne].
  - apply exampleStore_refers in Hox as [-> Hne].
    inversion Hyz as [x z Hyx|x w z Hyw _]; subst.
    + by apply exampleStore_refers in Hyx as [-> _].
    + by apply exampleStore_refers in Hyw as [-> _].
Qed.

Lemma readGitSexpExpression_terminates_witness :
  ∃ n r, ∀ m, (n ≤ m)%nat → readGitSexpExpression m exampleStore "t1" = Some r.
Proof. apply (readGitSexpExpression_terminates exampleStore "t1"), exampleStore_acyclic. Defined.

(** * Further properties of the code *)

(** ** Atoms: writing, reading, and the atom predicate *)

Lemma git_readObject_ne (objs : gmap Oid GitObject) (oid : Oid) :
  oid ≠ GitSexpEmptyValue_oid →
  git_readObject objs oid
  = match objs !! oid with
    | None => Throw NotFound
    | Some (Blob b) =>
        Ok {| ro_type := blob; ro_format := content; ro_object := Blob b |}
    | Some (Tree es) =>
        Ok {| ro_type := tree; ro_format := parsed; ro_object := Tree (sortEntries es) |}
    | Some (Commit c) =>
        Ok {| ro_type := commit; ro_format := parsed; ro_object := Commit c |}
    end.
Proof. intros Hne. unfold git_readObject. by rewrite decide_False. Qed.

Lemma git_readObject_empty (objs : gmap Oid GitObject) :
  git_readObject objs GitSexpEmptyValue_oid
  = Ok {| ro_type := tree; ro_format := parsed; ro_object := Tree [] |}.
Proof. reflexivity. Qed.

(** The outcome of [readGitSexpAtom], by what the store holds under the
    id. *)
Lemma readGitSexpAtom_cases (objs : gmap Oid GitObject) (oid : Oid) :
  readGitSexpAtom objs oid
  = if decide (oid = GitSexpEmptyValue_oid) then Throw InvalidObject
    else match objs !! oid with
         | None => Throw NotFound
         | Some (Blob b) => Ok (GitSexpAtom (Buffer_toString b) oid)
         | Some _ => Throw InvalidObject
         end.
Proof.
  unfold readGitSexpAtom. case_decide as He.
  - subst. by rewrite git_readObject_empty.
  - rewrite git_readObject_ne by done. by destruct (objs !! oid) as [[b|es|c]|].
Qed.

Section AtomFacts.
Context `{Hasher}.
Hypothesis hash_inj : ∀ x y : GitObject, hash x = hash y → x = y.
Hypothesis hash_empty_tree : hash (Tree []) = GitSexpEmptyValue_oid.

(** X1: an atom written to a content-addressed store is read back from the
    id the write returned, under that id, with every unpaired surrogate of
    its string replaced by U+FFFD; it is read back as it was written
    exactly when the string is well formed (the first two tests of the
    source, for every string). *)
Theorem readGitSexpAtom_writeGitSexpAtom (str : JsString) (objs : gmap Oid GitObject) :
  store_ok objs →
  readGitSexpAtom (writeGitSexpAtom str objs).2 (oid_of (writeGitSexpAtom str objs).1)
  = Ok (GitSexpAtom (toWellFormed str) (oid_of (writeGitSexpAtom str objs).1))
  ∧ (readGitSexpAtom (writeGitSexpAtom str objs).2 (oid_of (writeGitSexpAtom str objs).1)
     = Ok (writeGitSexpAtom str objs).1
     ↔ isWellFormed str = true).
Proof.
  intros Hok. rewrite writeGitSexpAtom_eq. cbn [fst snd oid_of].
  rewrite readGitSexpAtom_cases, decide_False by by apply hash_blob_not_empty.
  rewrite writeObject_lookup, Buffer_toString_from by done.
  split; [done|]. rewrite toWellFormed_id. split; [by intros [= ->]|by intros ->].
Qed.
End AtomFacts.

(** X2: [readGitSexpAtom] succeeds exactly on the id of a stored blob, with
    the blob's bytes decoded as UTF-8 (ill-formed sequences replaced by
    U+FFFD) as value and the id asked for as id; it fails with
    [NotFound] exactly when nothing is stored under the id, and with
    [InvalidObject] exactly on the id of the empty tree, of a tree or of a
    commit. *)
Theorem readGitSexpAtom_outcomes (objs : gmap Oid GitObject) (oid : Oid) :
  (∀ a, readGitSexpAtom objs oid = Ok a
        ↔ oid ≠ GitSexpEmptyValue_oid
          ∧ ∃ b, objs !! oid = Some (Blob b) ∧ a = GitSexpAtom (Buffer_toString b) oid)
  ∧ (readGitSexpAtom objs oid = Throw NotFound
     ↔ oid ≠ GitSexpEmptyValue_oid ∧ objs !! oid = None)
  ∧ (readGitSexpAtom objs oid = Throw InvalidObject
     ↔ oid = GitSexpEmptyValue_oid
       ∨ (∃ es, objs !! oid = Some (Tree es)) ∨ (∃ c, objs !! oid = Some (Commit c))).
Proof.
  rewrite readGitSexpAtom_cases.
  destruct (decide (oid = GitSexpEmptyValue_oid)) as [He|He];
    [|destruct (objs !! oid) as [[b|es|c]|]];
    (split_and!; [intros a; split|split|split]; naive_solver).
Qed.

(** X3: the atom predicate answers [true] exactly when [readGitSexpAtom]
    succeeds on the same id. *)
Theorem isGitSexpAtomOid_iff_readGitSexpAtom (objs : gmap Oid GitObject) (oid : Oid) :
  isGitSexpAtomOid objs oid = true ↔ ∃ a, readGitSexpAtom objs oid = Ok a.
Proof.
  rewrite readGitSexpAtom_cases. unfold isGitSexpAtomOid. case_decide as He.
  - subst. rewrite git_readObject_empty. split; [done|]. by intros [a Ha].
  - rewrite git_readObject_ne by done.
    destruct (objs !! oid) as [[b|es|c]|]; split; try done; try (by intros [a Ha]).
    eauto.
Qed.

(** ** The shape test and the pair predicate *)

Lemma existsb_find_is_Some {A} (f : A → bool) (l : list A) :
  existsb f l = true → is_Some (find f l).
Proof.
  induction l as [|x l IH]; simpl; [done|].
  destruct (f x); simpl; eauto.
Qed.

(** X4: [isValidGitSexpConsObject] accepts a listing exactly when the
    object is a tree in content or parsed format and the listing has two
    entries, one named "car" and one named "cdr", in either order. *)
Theorem isValidGitSexpConsObject_iff (objectInfo : ReadObjectResult)
    (t : list TreeEntry) :
  isValidGitSexpConsObject objectInfo t = true
  ↔ ro_type objectInfo = tree
    ∧ (ro_format objectInfo = content ∨ ro_format objectInfo = parsed)
    ∧ ∃ a b, (t = [a; b] ∨ t = [b; a])
             ∧ entry_path a = "car" ∧ entry_path b = "cdr".
Proof.
  unfold isValidGitSexpConsObject.
  destruct objectInfo as [ty fmt obj]; simpl.
  destruct ty, fmt; simpl; try (split; [done|]; naive_solver).
  all: destruct t as [|x [|y [|z t]]]; simpl; try (split; [done|]; naive_solver).
  all: rewrite !orb_false_r; split.
  all: try (intros Hv; split; [done|]; split; [by auto|];
            apply andb_true_iff in Hv as [Hcar Hcdr];
            apply orb_true_iff in Hcar as [Hc|Hc]; apply orb_true_iff in Hcdr as [Hd|Hd];
            apply String.eqb_eq in Hc, Hd; try congruence;
            [exists x, y|exists y, x]; by auto).
  all: intros (_ & _ & a & b & [[= -> ->]|[= -> ->]] & -> & ->); simpl;
    by rewrite ?orb_true_r.
Qed.

Lemma valid_listing_found (objectInfo : ReadObjectResult) (oid : Oid)
    (listing : Fueled (list TreeEntry)) :
  match listing with
  | None => None
  | Some (Throw _) => Some false
  | Some (Ok t) => Some (isValidGitSexpConsObject objectInfo t)
  end = Some true
  ↔ ∃ consLazy,
      (await* t := listing in
       if negb (isValidGitSexpConsObject objectInfo t) then Some (Throw InvalidObject)
       else
         match find (λ entry, String.eqb (entry_path entry) "car") t,
               find (λ entry, String.eqb (entry_path entry) "cdr") t with
         | Some carEntry, Some cdrEntry =>
             Some (Ok {| lazy_car := Some (lazyOfEntry carEntry);
                         lazy_cdr := Some (lazyOfEntry cdrEntry);
                         lazy_oid := oid |})
         | _, _ => Some (Throw InvalidObject)
         end) = Some (Ok consLazy).
Proof.
  destruct listing as [[t|e]|]; simpl; try (split; [done|by intros [l Hl]]).
  destruct (isValidGitSexpConsObject objectInfo t) eqn:Hv; simpl;
    [|split; [done|by intros [l Hl]]].
  split; [intros _|done].
  unfold isValidGitSexpConsObject in Hv.
  destruct (negb (ObjectType_eqb (ro_type objectInfo) tree) || _); [done|].
  destruct (negb (length t =? 2)%nat); [done|]. simpl in Hv.
  apply andb_true_iff in Hv as [Hcar Hcdr].
  apply existsb_find_is_Some in Hcar as [ce ->].
  apply existsb_find_is_Some in Hcdr as [de ->]. eauto.
Qed.

(** X5: the pair predicate answers [true] exactly when
    [readGitSexpConsLazy] succeeds on the same id. *)
Theorem isGitSexpConsOid_iff_readGitSexpConsLazy (fuel : nat)
    (objs : gmap Oid GitObject) (oid : Oid) :
  isGitSexpConsOid fuel objs oid = Some true
  ↔ ∃ consLazy, readGitSexpConsLazy fuel objs oid = Some (Ok consLazy).
Proof.
  unfold isGitSexpConsOid, readGitSexpConsLazy.
  destruct (git_readObject objs oid) as [objectInfo|e]; cbn [bindF];
    [|split; [done|by intros [l Hl]]].
  apply valid_listing_found.
Qed.

(** X6: no id is both an atom and a pair: where the atom predicate answers
    [true], the pair predicate answers [false]. *)
Theorem isGitSexpAtomOid_not_isGitSexpConsOid (fuel : nat)
    (objs : gmap Oid GitObject) (oid : Oid) :
  isGitSexpAtomOid objs oid = true → isGitSexpConsOid (S fuel) objs oid = Some false.
Proof.
  unfold isGitSexpAtomOid, isGitSexpConsOid. intros Ha.
  destruct (decide (oid = GitSexpEmptyValue_oid)) as [He|He].
  { subst. by rewrite git_readObject_empty in Ha. }
  rewrite git_readObject_ne in * by done.
  destruct (objs !! oid) as [[b|es|c]|] eqn:Hl; try done.
  simpl. by rewrite decide_False, Hl.
Qed.

Lemma isGitSexpAtomOid_not_isGitSexpConsOid_witness :
  isGitSexpConsOid 1 exampleStore "a1" = Some false.
Proof. apply isGitSexpAtomOid_not_isGitSexpConsOid. reflexivity. Defined.

(** ** The reader *)

Lemma readGitSexpExpression_oid_of (fuel : nat) (objs : gmap Oid GitObject) (oid : Oid)
    (sexp : GitSexpExpression) :
  readGitSexpExpression fuel objs oid = Some (Ok sexp) → oid_of sexp = oid.
Proof.
  destruct fuel as [|n]; [done|]. intros Hr.
  read_cases objs oid.
  - subst. rewrite read_empty in Hr. by injection Hr as <-.
  - by rewrite (read_missing _ _ _ Hne Hl) in Hr.
  - rewrite (read_blob _ _ _ _ Hne Hl) in Hr. by injection Hr as <-.
  - rewrite (read_commit _ _ _ _ Hne Hl) in Hr.
    by destruct (git_readTree n objs oid) as [[x|e]|].
  - by rewrite (read_tree_invalid _ _ _ _ Hne Hl Hv) in Hr.
  - rewrite (read_tree_cons _ _ _ _ _ _ Hne Hl Hs Hc Hd) in Hr.
    apply bindF_Some_Ok in Hr as (car & H1 & Hr).
    apply bindF_Some_Ok in Hr as (cdr & H2 & Hr). by injection Hr as <-.
Qed.

(** X7: an expression returned by the reader carries the id that was
    asked for, so reading its own id gives it again; and each atom and
    pair inside it is stored under the id it carries. *)
Theorem readGitSexpExpression_self_describing (fuel : nat)
    (objs : gmap Oid GitObject) (oid : Oid) (sexp : GitSexpExpression) :
  readGitSexpExpression fuel objs oid = Some (Ok sexp) →
  oid_of sexp = oid
  ∧ readGitSexpExpression fuel objs (oid_of sexp) = Some (Ok sexp)
  ∧ subOids sexp ⊆ dom objs.
Proof.
  intros Hr. pose proof (readGitSexpExpression_oid_of _ _ _ _ Hr) as Ho.
  split; [done|]. split; [by rewrite Ho|]. clear Ho.
  revert oid sexp Hr. induction fuel as [|n IH]; intros oid sexp Hr; [done|].
  read_cases objs oid.
  - subst. rewrite read_empty in Hr. injection Hr as <-. set_solver.
  - by rewrite (read_missing _ _ _ Hne Hl) in Hr.
  - rewrite (read_blob _ _ _ _ Hne Hl) in Hr. injection Hr as <-. simpl.
    apply (elem_of_dom_2 objs) in Hl. set_solver.
  - rewrite (read_commit _ _ _ _ Hne Hl) in Hr.
    by destruct (git_readTree n objs oid) as [[x|e]|].
  - by rewrite (read_tree_invalid _ _ _ _ Hne Hl Hv) in Hr.
  - rewrite (read_tree_cons _ _ _ _ _ _ Hne Hl Hs Hc Hd) in Hr.
    apply bindF_Some_Ok in Hr as (car & H1 & Hr).
    apply bindF_Some_Ok in Hr as (cdr & H2 & Hr). injection Hr as <-. simpl.
    apply IH in H1. apply IH in H2. apply (elem_of_dom_2 objs) in Hl. set_solver.
Qed.

Lemma readGitSexpExpression_self_describing_witness :
  oid_of (GitSexpCons (GitSexpAtom (js "A") "a1") GitSexpEmpty "t1") = "t1"
  ∧ readGitSexpExpression 2 exampleStore
      (oid_of (GitSexpCons (GitSexpAtom (js "A") "a1") GitSexpEmpty "t1"))
    = Some (Ok (GitSexpCons (GitSexpAtom (js "A") "a1") GitSexpEmpty "t1"))
  ∧ subOids (GitSexpCons (GitSexpAtom (js "A") "a1") GitSexpEmpty "t1") ⊆ dom exampleStore.
Proof.
  apply (readGitSexpExpression_self_describing 2 exampleStore "t1"). reflexivity.
Defined.

(** ** The encoder and the store *)

Section EncoderFacts.
Context `{Hasher}.

Lemma writeObject_present (obj : GitObject) (objs : gmap Oid GitObject) :
  hash obj ∈ dom objs → (writeObject obj objs).2 = objs.
Proof.
  intros [x Hx]%elem_of_dom. unfold writeObject; simpl. by rewrite Hx.
Qed.

Lemma jsSexpToGitSexp_atom (str : JsString) (objs : gmap Oid GitObject) :
  jsSexpToGitSexp (JsAtom str) objs
  = (GitSexpAtom str (hash (Blob (Buffer_from str))),
     (writeObject (Blob (Buffer_from str)) objs).2).
Proof. reflexivity. Qed.

Lemma jsSexpToGitSexp_cons (v0 v1 : JsSexp) (objs : gmap Oid GitObject) :
  jsSexpToGitSexp (JsCons v0 v1) objs
  = let car := (jsSexpToGitSexp v0 objs).1 in
    let cdr := (jsSexpToGitSexp v1 (jsSexpToGitSexp v0 objs).2).1 in
    (GitSexpCons car cdr (hash (Tree (consTree car cdr))),
     (writeObject (Tree (consTree car cdr))
        (jsSexpToGitSexp v1 (jsSexpToGitSexp v0 objs).2).2).2).
Proof.
  simpl. destruct (jsSexpToGitSexp v0 objs) as [car objs1]. simpl.
  destruct (jsSexpToGitSexp v1 objs1) as [cdr objs2]. reflexivity.
Qed.

Lemma jsSexpToGitSexp_dom_eq (v : JsSexp) (objs : gmap Oid GitObject) :
  dom (jsSexpToGitSexp v objs).2 = subOids (jsSexpToGitSexp v objs).1 ∪ dom objs.
Proof.
  revert objs. induction v as [| s | v0 IH0 v1 IH1]; intros objs.
  - simpl. set_solver.
  - rewrite jsSexpToGitSexp_atom. cbn [fst snd subOids]. apply writeObject_dom.
  - rewrite jsSexpToGitSexp_cons. cbn [fst snd subOids].
    rewrite writeObject_dom, IH1, IH0. set_solver.
Qed.

Lemma jsSexpToGitSexp_present (v : JsSexp) (objs : gmap Oid GitObject) :
  subOids (jsSexpToGitSexp v objs).1 ⊆ dom objs → (jsSexpToGitSexp v objs).2 = objs.
Proof.
  revert objs. induction v as [| s | v0 IH0 v1 IH1]; intros objs.
  - done.
  - rewrite jsSexpToGitSexp_atom. cbn [fst snd subOids]. intros Hsub.
    apply writeObject_present. set_solver.
  - rewrite jsSexpToGitSexp_cons. cbn [fst snd subOids]. intros Hsub.
    assert ((jsSexpToGitSexp v0 objs).2 = objs) as E0 by (apply IH0; set_solver).
    rewrite E0 in *.
    assert ((jsSexpToGitSexp v1 objs).2 = objs) as E1 by (apply IH1; set_solver).
    rewrite E1. apply writeObject_present. set_solver.
Qed.

(** X8: after an encoding the store holds what it held before and, in
    addition, exactly the ids of the atoms and pairs of the result; no
    other id appears and none disappears. *)
Theorem jsSexpToGitSexp_dom (v : JsSexp) (objs : gmap Oid GitObject) :
  dom (jsSexpToGitSexp v objs).2 = subOids (jsSexpToGitSexp v objs).1 ∪ dom objs
  ∧ objs ⊆ (jsSexpToGitSexp v objs).2.
Proof. split; [apply jsSexpToGitSexp_dom_eq|apply jsSexpToGitSexp_subseteq]. Qed.

(** X9: encoding is free the second time: a value encoded again into the
    store its first encoding left returns the same expression and writes
    nothing. *)
Theorem jsSexpToGitSexp_twice (v : JsSexp) (objs : gmap Oid GitObject) :
  jsSexpToGitSexp v (jsSexpToGitSexp v objs).2 = jsSexpToGitSexp v objs.
Proof.
  apply injective_projections.
  - apply jsSexpToGitSexp_fst_indep.
  - apply jsSexpToGitSexp_present.
    rewrite (jsSexpToGitSexp_fst_indep v _ objs), jsSexpToGitSexp_dom_eq. set_solver.
Qed.

Lemma prepend_encode_fst (str : JsString) (v : JsSexp)
    (objs objs1 objs2 : gmap Oid GitObject) :
  (consStringOntoGitSexpExpression str (jsSexpToGitSexp v objs).1 objs1).1
  = (jsSexpToGitSexp (JsCons (JsAtom str) v) objs2).1.
Proof.
  rewrite consStringOntoGitSexpExpression_eq, jsSexpToGitSexp_cons.
  rewrite jsSexpToGitSexp_atom. cbn [fst snd].
  by rewrite (jsSexpToGitSexp_fst_indep v
                (writeObject (Blob (Buffer_from str)) objs2).2 objs).
Qed.

(** X10: prepending a string to an encoded value returns the very
    expression, ids included, that encoding the pair of the string and the
    value returns. *)
Theorem consStringOntoGitSexpExpression_encode (str : JsString) (v : JsSexp)
    (objs objs1 objs2 : gmap Oid GitObject) :
  (consStringOntoGitSexpExpression str (jsSexpToGitSexp v objs).1 objs1).1
  = (jsSexpToGitSexp (JsCons (JsAtom str) v) objs2).1.
Proof. apply prepend_encode_fst. Qed.

Section ContentAddressed.
Hypothesis hash_inj : ∀ x y : GitObject, hash x = hash y → x = y.
Hypothesis hash_empty_tree : hash (Tree []) = GitSexpEmptyValue_oid.

Lemma store_ok_dom_eq (objs1 objs2 : gmap Oid GitObject) :
  store_ok objs1 → store_ok objs2 → dom objs1 = dom objs2 → objs1 = objs2.
Proof.
  clear hash_empty_tree. intros Hok1 Hok2 Hdom. apply map_eq. intros oid.
  destruct (objs1 !! oid) as [x|] eqn:H1, (objs2 !! oid) as [y|] eqn:H2; try done.
  - f_equal. apply hash_inj. by rewrite (Hok1 _ _ H1), (Hok2 _ _ H2).
  - apply (elem_of_dom_2 objs1) in H1. apply (not_elem_of_dom objs2) in H2. set_solver.
  - apply (elem_of_dom_2 objs2) in H2. apply (not_elem_of_dom objs1) in H1. set_solver.
Qed.

(** X11: in a content-addressed store, encoding a value and then
    prepending a string leaves the same store as encoding the pair of the
    string and the value: the order of the writes does not show. *)
Theorem consStringOntoGitSexpExpression_encode_store (str : JsString) (v : JsSexp)
    (objs : gmap Oid GitObject) :
  store_ok objs →
  consStringOntoGitSexpExpression str (jsSexpToGitSexp v objs).1
    (jsSexpToGitSexp v objs).2
  = jsSexpToGitSexp (JsCons (JsAtom str) v) objs.
Proof.
  clear hash_empty_tree. intros Hok. apply injective_projections.
  - apply prepend_encode_fst.
  - pose proof (jsSexpToGitSexp_store_ok (JsCons (JsAtom str) v) objs Hok) as Hok2.
    pose proof (jsSexpToGitSexp_dom_eq (JsCons (JsAtom str) v) objs) as Hdom2.
    pose proof (prepend_encode_fst str v objs
                  (jsSexpToGitSexp v objs).2 objs) as Hfst.
    pose proof (jsSexpToGitSexp_store_ok v objs Hok) as Hok1.
    pose proof (jsSexpToGitSexp_dom_eq v objs) as Hdom1.
    apply store_ok_dom_eq; [|done|].
    + rewrite consStringOntoGitSexpExpression_eq. cbn [snd].
      by do 2 apply writeObject_store_ok.
    + rewrite Hdom2, <- Hfst.
      rewrite consStringOntoGitSexpExpression_eq. cbn [fst snd subOids].
      rewrite !writeObject_dom, Hdom1. set_solver.
Qed.

(** X12: what the encoder wrote is read back in full from the id it
    returned, with any fuel from some bound on, as the expression the
    encoder returns for the value with every unpaired surrogate replaced
    by U+FFFD: the same ids, the strings made well formed.  That is the
    expression the encoder returned exactly when the strings of the value
    are well formed (the last test of the source, for every value). *)
Theorem readGitSexpExpression_jsSexpToGitSexp (v : JsSexp) (objs : gmap Oid GitObject) :
  store_ok objs →
  ∃ n, ∀ m, (n ≤ m)%nat →
    readGitSexpExpression m (jsSexpToGitSexp v objs).2
      (oid_of (jsSexpToGitSexp v objs).1)
    = Some (Ok (jsSexpToGitSexp (toWellFormedSexp v) objs).1)
    ∧ (readGitSexpExpression m (jsSexpToGitSexp v objs).2
         (oid_of (jsSexpToGitSexp v objs).1)
       = Some (Ok (jsSexpToGitSexp v objs).1)
       ↔ isWellFormedSexp v = true).
Proof.
  intros Hok.
  destruct (Stored_encode_toWellFormed hash_inj hash_empty_tree v objs Hok) as [n Hn].
  rewrite oid_of_toWellFormedExpression in Hn.
  rewrite <- (jsSexpToGitSexp_toWellFormedSexp v objs objs) in Hn.
  exists n. intros m Hm.
  apply (readGitSexpExpression_mono _ m) in Hn; [|done].
  split; [done|]. split.
  - intros Hr. apply readGitSexpExpression_isWellFormed in Hr.
    by rewrite isWellFormedSexp_encode in Hr.
  - intros Hwf%toWellFormedSexp_id. by rewrite Hwf in Hn.
Qed.
End ContentAddressed.
End EncoderFacts.

Lemma consStringOntoGitSexpExpression_encode_store_witness :
  @consStringOntoGitSexpExpression demoHash (js "X")
    (@jsSexpToGitSexp demoHash exampleList ∅).1 (@jsSexpToGitSexp demoHash exampleList ∅).2
  = @jsSexpToGitSexp demoHash (JsCons (JsAtom (js "X")) exampleList) ∅.
Proof.
  apply (@consStringOntoGitSexpExpression_encode_store demoHash demoHash_inj).
  apply store_ok_empty.
Defined.

Lemma readGitSexpExpression_jsSexpToGitSexp_witness :
  ∃ n, ∀ m, (n ≤ m)%nat →
    readGitSexpExpression m (@jsSexpToGitSexp demoHash exampleList ∅).2
      (oid_of (@jsSexpToGitSexp demoHash exampleList ∅).1)
    = Some (Ok (@jsSexpToGitSexp demoHash (toWellFormedSexp exampleList) ∅).1)
    ∧ (readGitSexpExpression m (@jsSexpToGitSexp demoHash exampleList ∅).2
         (oid_of (@jsSexpToGitSexp demoHash exampleList ∅).1)
       = Some (Ok (@jsSexpToGitSexp demoHash exampleList ∅).1)
       ↔ isWellFormedSexp exampleList = true).
Proof.
  apply (@readGitSexpExpression_jsSexpToGitSexp demoHash demoHash_inj
           demoHash_empty_tree).
  apply store_ok_empty.
Defined.

Lemma readGitSexpAtom_writeGitSexpAtom_witness :
  readGitSexpAtom (@writeGitSexpAtom demoHash [0x48; 0xD800; 0x69]%N ∅).2
    (oid_of (@writeGitSexpAtom demoHash [0x48; 0xD800; 0x69]%N ∅).1)
  = Ok (GitSexpAtom (toWellFormed [0x48; 0xD800; 0x69]%N)
          (oid_of (@writeGitSexpAtom demoHash [0x48; 0xD800; 0x69]%N ∅).1))
  ∧ (readGitSexpAtom (@writeGitSexpAtom demoHash [0x48; 0xD800; 0x69]%N ∅).2
       (oid_of (@writeGitSexpAtom demoHash [0x48; 0xD800; 0x69]%N ∅).1)
     = Ok (@writeGitSexpAtom demoHash [0x48; 0xD800; 0x69]%N ∅).1
     ↔ isWellFormed [0x48; 0xD800; 0x69]%N = true).
Proof.
  apply (@readGitSexpAtom_writeGitSexpAtom demoHash demoHash_inj demoHash_empty_tree).
  apply store_ok_empty.
Defined.

(** ** The lazy writers *)

Lemma consTreeLazy_toLazy (car cdr : GitSexpExpression) :
  consTreeLazy (toLazy car) (toLazy cdr) = consTree car cdr.
Proof. by destruct car, cdr. Qed.

Section LazyFacts.
Context `{Hasher}.

Lemma writeGitSexpConsLazy_eq (car cdr : LazySexp) (objs : gmap Oid GitObject) :
  writeGitSexpConsLazy car cdr objs
  = (LazyCons (Some car) (Some cdr) (hash (Tree (consTreeLazy car cdr))),
     (writeObject (Tree (consTreeLazy car cdr)) objs).2).
Proof. by destruct car, cdr. Qed.

Lemma writeGitSexpListLazy_cons (sexp : option LazySexp) (sexps : list (option LazySexp))
    (objs : gmap Oid GitObject) :
  writeGitSexpListLazy (sexp :: sexps) objs
  = match sexp with
    | Some s => writeGitSexpConsLazy s (writeGitSexpListLazy sexps objs).1
                  (writeGitSexpListLazy sexps objs).2
    | None => writeGitSexpListLazy sexps objs
    end.
Proof. unfold writeGitSexpListLazy. simpl. by rewrite fold_left_app. Qed.

(** X13: the lazy and the eager pair writer agree: given the same children
    by kind and id they write the same tree under the same id. *)
Theorem writeGitSexpConsLazy_writeGitSexpCons (car cdr : GitSexpExpression)
    (objs : gmap Oid GitObject) :
  writeGitSexpConsLazy (toLazy car) (toLazy cdr) objs
  = (toLazy (writeGitSexpCons car cdr objs).1, (writeGitSexpCons car cdr objs).2).
Proof.
  rewrite writeGitSexpConsLazy_eq, writeGitSexpCons_eq. cbn [fst snd toLazy].
  by rewrite consTreeLazy_toLazy.
Qed.

(** X14: [writeGitSexpListLazy] passes over the [null] and [undefined]
    elements of its array: it returns, and writes, what it does for the
    array without them; for the empty array that is the empty expression
    and no write. *)
Theorem writeGitSexpListLazy_skips_null (sexps : list (option LazySexp))
    (objs : gmap Oid GitObject) :
  writeGitSexpListLazy sexps objs
  = writeGitSexpListLazy (map Some (omap id sexps)) objs
  ∧ writeGitSexpListLazy [] objs = (LazyEmpty, objs).
Proof.
  split; [|done]. induction sexps as [|[s|] sexps IH].
  - done.
  - simpl. by rewrite !writeGitSexpListLazy_cons, IH.
  - simpl. by rewrite writeGitSexpListLazy_cons.
Qed.

(** X15: the list the lazy writer builds from the ids of the atoms of an
    array of strings is, pair by pair and id by id, the expression the
    encoder builds from the cons list of the array. *)
Theorem writeGitSexpListLazy_jsSexpToGitSexp (strings : list JsString)
    (objs objs' : gmap Oid GitObject) :
  (writeGitSexpListLazy
     (map (λ str, Some (LazyAtom (hash (Blob (Buffer_from str))))) strings) objs).1
  = toLazy (jsSexpToGitSexp (consListOf strings) objs').1.
Proof.
  revert objs'. induction strings as [|str strings IH]; intros objs'; [done|].
  cbn [map]. rewrite writeGitSexpListLazy_cons, writeGitSexpConsLazy_eq.
  unfold consListOf. cbn [foldr]. fold (consListOf strings).
  rewrite jsSexpToGitSexp_cons, jsSexpToGitSexp_atom. cbn [fst snd toLazy].
  rewrite (IH (writeObject (Blob (Buffer_from str)) objs').2).
  by rewrite <- consTreeLazy_toLazy.
Qed.

Section ContentAddressedLazy.
Hypothesis hash_inj : ∀ x y : GitObject, hash x = hash y → x = y.
Hypothesis hash_empty_tree : hash (Tree []) = GitSexpEmptyValue_oid.

(** X16: a pair written lazily into a content-addressed store is read
    back lazily from the id the write returned, with both children by
    kind and id, provided no child but the empty expression carries the id
    of the empty tree. *)
Theorem readGitSexpConsLazy_writeGitSexpConsLazy (fuel : nat) (car cdr : LazySexp)
    (objs : gmap Oid GitObject) :
  store_ok objs → properId car → properId cdr →
  readGitSexpConsLazy fuel (writeGitSexpConsLazy car cdr objs).2
    (oid_of_LazySexp (writeGitSexpConsLazy car cdr objs).1)
  = Some (Ok {| lazy_car := Some (childOf car); lazy_cdr := Some (childOf cdr);
                lazy_oid := oid_of_LazySexp (writeGitSexpConsLazy car cdr objs).1 |}).
Proof.
  intros Hok Hcar Hcdr. rewrite writeGitSexpConsLazy_eq. cbn [fst snd oid_of_LazySexp].
  assert (hash (Tree (consTreeLazy car cdr)) ≠ GitSexpEmptyValue_oid) as Hne.
  { rewrite <- hash_empty_tree. intros Heq. by apply hash_inj in Heq. }
  unfold readGitSexpConsLazy. rewrite git_readObject_ne by done.
  rewrite writeObject_lookup by done.
  destruct car as [|a|a1 a2 a], cdr as [|d|d1 d2 d]; simpl in *;
    unfold lazyOfEntry; simpl; rewrite ?decide_True, ?decide_False by done; done.
Qed.
End ContentAddressedLazy.
End LazyFacts.

Lemma readGitSexpConsLazy_writeGitSexpConsLazy_witness :
  readGitSexpConsLazy 0
    (@writeGitSexpConsLazy demoHash (LazyAtom "a1") LazyEmpty ∅).2
    (oid_of_LazySexp (@writeGitSexpConsLazy demoHash (LazyAtom "a1") LazyEmpty ∅).1)
  = Some (Ok {| lazy_car := Some (childOf (LazyAtom "a1"));
                lazy_cdr := Some (childOf LazyEmpty);
                lazy_oid := oid_of_LazySexp
                  (@writeGitSexpConsLazy demoHash (LazyAtom "a1") LazyEmpty ∅).1 |}).
Proof.
  apply (@readGitSexpConsLazy_writeGitSexpConsLazy demoHash demoHash_inj
           demoHash_empty_tree 0 (LazyAtom "a1") LazyEmpty ∅).
  - apply store_ok_empty.
  - discriminate.
  - exact I.
Defined.

(** ** The list builder, both ways *)

Lemma ProperList_consListOf (v : JsSexp) (l : list JsString) :
  ProperList v l → v = consListOf l.
Proof. induction 1 as [|s cdr l _ IH]; [done|]. unfold consListOf. simpl. by f_equal. Qed.

(** X17: flattening a cons list and building a cons list from the result
    gives a proper list with the same elements; it gives the original back
    exactly when the original was a proper list (a list that ended in an
    atom comes back ending in the empty expression). *)
Theorem stringArrayToConsList_consListToStringArray (v : JsSexp) (l : list JsString)
    (a : ArrayRef) (h : ArrayHeap) :
  consListToStringArray v = Ok l → h !! a = Some l →
  ∃ v' h', stringArrayToConsList a h = Some (v', h')
           ∧ ProperList v' l
           ∧ consListToStringArray v' = Ok l
           ∧ (v' = v ↔ ProperList v l).
Proof.
  intros Hv Ha. exists (consListOf l), (<[a := rev l]> h). split_and!.
  - by apply stringArrayToConsList_spec.
  - apply consList_ProperList.
  - apply consListToStringArray_proper, consList_ProperList.
  - split; [intros <-; apply consList_ProperList|].
    intros Hp. symmetry. by apply ProperList_consListOf.
Qed.

Lemma stringArrayToConsList_consListToStringArray_witness :
  ∃ v' h', stringArrayToConsList 1%positive {[ 1%positive := [js "a"; js "b"] ]} = Some (v', h')
           ∧ ProperList v' [js "a"; js "b"]
           ∧ consListToStringArray v' = Ok [js "a"; js "b"]
           ∧ (v' = JsCons (JsAtom (js "a")) (JsAtom (js "b"))
              ↔ ProperList (JsCons (JsAtom (js "a")) (JsAtom (js "b"))) [js "a"; js "b"]).
Proof.
  apply (stringArrayToConsList_consListToStringArray
           (JsCons (JsAtom (js "a")) (JsAtom (js "b"))) [js "a"; js "b"] 1%positive).
  - reflexivity.
  - reflexivity.
Defined.

(** ** The history manager *)

Section HistoryErrors.
Context `{Hasher}.

(** X18: where the history branch does not exist, an append and a load
    both fail with [LineNotFound], and the append changes nothing. *)
Theorem history_LineNotFound (now : Z) (sexpList : GitSexpExpression) (fuel : nat)
    (r : Repo) :
  repo_branches r !! HISTORY_BRANCH = None →
  updateBranchHead now sexpList r = Throw LineNotFound
  ∧ loadHistoryGitSexpList fuel r = Some (Throw LineNotFound).
Proof.
  intros Hb. unfold updateBranchHead, loadHistoryGitSexpList, git_resolveRef.
  by rewrite Hb.
Qed.

(** X19: an append that succeeds only adds: the configuration and [HEAD]
    are as before, every object stored before is stored unchanged, the one
    id that may be new is that of a commit whose snapshot is the list's id
    and whose only parent is the former tip of the history branch, and the
    only branch moved is the one [HEAD] is on. *)
Theorem updateBranchHead_frame (now : Z) (sexpList : GitSexpExpression) (r r' : Repo) :
  updateBranchHead now sexpList r = Ok r' →
  ∃ ref tip c,
    repo_head r = Some ref
    ∧ repo_branches r !! HISTORY_BRANCH = Some tip
    ∧ commit_tree c = oid_of sexpList
    ∧ commit_parent c = [tip]
    ∧ commit_timestamp c = now
    ∧ repo_head r' = repo_head r
    ∧ repo_config r' = repo_config r
    ∧ repo_objects r ⊆ repo_objects r'
    ∧ dom (repo_objects r') = {[ hash (Commit c) ]} ∪ dom (repo_objects r)
    ∧ repo_branches r' = <[ref := hash (Commit c)]> (repo_branches r).
Proof.
  unfold updateBranchHead, git_resolveRef, git_commit.
  destruct (repo_branches r !! HISTORY_BRANCH) as [tip|] eqn:Hb; [|done]. cbn [bindR].
  destruct (repo_head r) as [ref|] eqn:Hh; [|done].
  destruct (repo_config r !! "user.name") as [name|] eqn:Hn; [|done].
  set (c := {| commit_tree := oid_of sexpList; commit_parent := [tip];
               commit_author := (name, default "" (repo_config r !! "user.email"));
               commit_timestamp := now; commit_message := "Append messages" |}).
  pose proof (writeObject_subseteq (Commit c) (repo_objects r)) as Hsub.
  pose proof (writeObject_dom (Commit c) (repo_objects r)) as Hdom.
  destruct (writeObject (Commit c) (repo_objects r)) as [oid objs'] eqn:Hw.
  assert (oid = hash (Commit c)) as -> by by injection Hw.
  cbn [bindR snd] in *. intros [= <-]. exists ref, tip, c. by split_and!.
Qed.

(** X20: [setupGitSexpRepo] never fails, whatever state it finds: it
    returns a repository with the author configured, garbage collection
    off, at least one branch, and every object that was stored before. *)
Theorem setupGitSexpRepo_succeeds (now : Z) (r : Repo) :
  ∃ r', setupGitSexpRepo now r = Ok r'
        ∧ isRepoEmpty r' = false
        ∧ repo_config r' !! "user.name" = Some "GitSexp"
        ∧ repo_config r' !! "user.email" = Some "git-sexp@localhost"
        ∧ repo_config r' !! "gc.auto" = Some "0"
        ∧ repo_objects r ⊆ repo_objects r'.
Proof.
  unfold setupGitSexpRepo.
  set (r1 := git_setConfig "user.email" "git-sexp@localhost"
               (git_setConfig "user.name" "GitSexp"
                  (git_setConfig "gc.auto" "0" (git_init HISTORY_BRANCH r)))).
  assert (repo_config r1 !! "user.name" = Some "GitSexp") as Hn.
  { unfold r1. simpl. rewrite lookup_insert_ne by done. apply lookup_insert_eq. }
  assert (repo_config r1 !! "user.email" = Some "git-sexp@localhost") as He
    by apply lookup_insert_eq.
  assert (repo_config r1 !! "gc.auto" = Some "0") as Hg.
  { unfold r1. simpl. rewrite !lookup_insert_ne by done. apply lookup_insert_eq. }
  assert (repo_objects r1 = repo_objects r) as Ho.
  { unfold r1, git_init. simpl. by destruct (repo_head r). }
  assert (is_Some (repo_head r1)) as [ref Href].
  { unfold r1, git_init. simpl. destruct (repo_head r) eqn:Hh; simpl; eauto. }
  destruct (isRepoEmpty r1) eqn:Hempty.
  - unfold git_commit. rewrite Href, Hn. cbn [bindR].
    eexists. split; [done|]. cbn. split_and!; try done.
    + apply not_true_is_false. rewrite isRepoEmpty_iff. cbn. apply insert_non_empty.
    + rewrite <- Ho. apply writeObject_subseteq.
  - exists r1. split_and!; try done. by rewrite Ho.
Qed.

(** X21: where a branch already exists, [setupGitSexpRepo] writes no
    commit: objects and branches are as before, only the configuration is
    set. *)
Theorem setupGitSexpRepo_existing (now : Z) (r : Repo) :
  repo_branches r ≠ ∅ →
  ∃ r', setupGitSexpRepo now r = Ok r'
        ∧ repo_objects r' = repo_objects r
        ∧ repo_branches r' = repo_branches r.
Proof.
  intros Hb. unfold setupGitSexpRepo.
  set (r1 := git_setConfig "user.email" "git-sexp@localhost"
               (git_setConfig "user.name" "GitSexp"
                  (git_setConfig "gc.auto" "0" (git_init HISTORY_BRANCH r)))).
  assert (repo_objects r1 = repo_objects r ∧ repo_branches r1 = repo_branches r)
    as [Ho Hbr].
  { unfold r1, git_init. simpl. by destruct (repo_head r). }
  destruct (isRepoEmpty r1) eqn:Hempty.
  - apply isRepoEmpty_iff in Hempty. congruence.
  - by exists r1.
Qed.

(** X22: every call of a session keeps what can be read: an expression
    read from an id before the call is read from it, the same, after. *)
Theorem runCall_keeps_reads (c : Call) (r r' : Repo) (fuel : nat) (oid : Oid)
    (sexp : GitSexpExpression) :
  runCall c r = Ok r' →
  readGitSexpExpression fuel (repo_objects r) oid = Some (Ok sexp) →
  readGitSexpExpression fuel (repo_objects r') oid = Some (Ok sexp).
Proof.
  intros Hc. apply readGitSexpExpression_subseteq.
  destruct c as [now L|v|str L]; cbn [runCall] in Hc.
  - unfold updateBranchHead, git_commit in Hc.
    destruct (git_resolveRef r HISTORY_BRANCH) as [tip|]; [|done]. cbn [bindR] in Hc.
    destruct (repo_head r); [|done]. destruct (repo_config r !! "user.name"); [|done].
    match type of Hc with context [writeObject ?o ?m] =>
      pose proof (writeObject_subseteq o m) as Hsub; destruct (writeObject o m) end.
    cbn [bindR snd] in *. by injection Hc as <-.
  - injection Hc as <-. apply jsSexpToGitSexp_subseteq.
  - replace r' with (withObjects r (consStringOntoGitSexpExpression str L (repo_objects r)).2)
      by congruence.
    cbn [withObjects repo_objects]. rewrite consStringOntoGitSexpExpression_eq. cbn [snd].
    etrans; apply writeObject_subseteq.
Qed.

(** X23: every call of a session keeps the store content-addressed: if
    each object sat under its own hash before, each does after. *)
Theorem runCall_store_ok (c : Call) (r r' : Repo) :
  runCall c r = Ok r' → store_ok (repo_objects r) → store_ok (repo_objects r').
Proof.
  intros Hc Hok. destruct c as [now L|v|str L]; cbn [runCall] in Hc.
  - unfold updateBranchHead, git_commit in Hc.
    destruct (git_resolveRef r HISTORY_BRANCH) as [tip|]; [|done]. cbn [bindR] in Hc.
    destruct (repo_head r); [|done]. destruct (repo_config r !! "user.name"); [|done].
    match type of Hc with context [writeObject ?o ?m] =>
      pose proof (writeObject_store_ok o m Hok) as Hok'; destruct (writeObject o m) end.
    cbn [bindR snd] in *. by injection Hc as <-.
  - injection Hc as <-. by apply jsSexpToGitSexp_store_ok.
  - replace r' with (withObjects r (consStringOntoGitSexpExpression str L (repo_objects r)).2)
      by congruence.
    cbn [withObjects repo_objects]. rewrite consStringOntoGitSexpExpression_eq. cbn [snd].
    by do 2 apply writeObject_store_ok.
Qed.
End HistoryErrors.

(** X24: the id of a commit is never read as an expression: whatever the
    fuel, the reader does not succeed on it. *)
Theorem readGitSexpExpression_commit (fuel : nat) (objs : gmap Oid GitObject)
    (oid : Oid) (c : CommitObject) (sexp : GitSexpExpression) :
  oid ≠ GitSexpEmptyValue_oid → objs !! oid = Some (Commit c) →
  readGitSexpExpression fuel objs oid ≠ Some (Ok sexp).
Proof.
  intros Hne Hl. destruct fuel as [|n]; [done|].
  rewrite (read_commit _ _ _ c Hne Hl).
  by destruct (git_readTree n objs oid) as [[t|e]|].
Qed.

(** ** The further properties on concrete data *)

Lemma history_LineNotFound_witness :
  @updateBranchHead demoHash 1 GitSexpEmpty emptyRepo = Throw LineNotFound
  ∧ loadHistoryGitSexpList 1 emptyRepo = Some (Throw LineNotFound).
Proof. apply (@history_LineNotFound demoHash 1 GitSexpEmpty 1 emptyRepo). reflexivity. Defined.

Lemma exampleAppended_eq :
  @updateBranchHead demoHash 1 exampleEncoded.1 exampleRepo = Ok exampleAppended.
Proof.
  unfold exampleAppended.
  destruct exampleRepo_ok as (Hok & (Hh & [name Hn] & tip & c & Hb & _) & _).
  unfold updateBranchHead, git_resolveRef, git_commit.
  rewrite Hb. cbn [bindR]. rewrite Hh, Hn.
  by destruct (writeObject _ _).
Qed.

Lemma updateBranchHead_frame_witness :
  ∃ ref tip c,
    repo_head exampleRepo = Some ref
    ∧ repo_branches exampleRepo !! HISTORY_BRANCH = Some tip
    ∧ commit_tree c = oid_of exampleEncoded.1
    ∧ commit_parent c = [tip]
    ∧ commit_timestamp c = 1%Z
    ∧ repo_head exampleAppended = repo_head exampleRepo
    ∧ repo_config exampleAppended = repo_config exampleRepo
    ∧ repo_objects exampleRepo ⊆ repo_objects exampleAppended
    ∧ dom (repo_objects exampleAppended)
      = {[ @hash demoHash (Commit c) ]} ∪ dom (repo_objects exampleRepo)
    ∧ repo_branches exampleAppended
      = <[ref := @hash demoHash (Commit c)]> (repo_branches exampleRepo).
Proof.
  apply (@updateBranchHead_frame demoHash 1 exampleEncoded.1 exampleRepo exampleAppended).
  apply exampleAppended_eq.
Defined.

Lemma exampleSetup_eq : @setupGitSexpRepo demoHash 0 emptyRepo = Ok exampleSetup.
Proof.
  unfold exampleSetup.
  by destruct (@setupGitSexpRepo_initialized demoHash 0) as (r & -> & _).
Qed.

Lemma setupGitSexpRepo_twice_witness :
  @setupGitSexpRepo demoHash 5 exampleSetup = Ok exampleSetup.
Proof. apply (@setupGitSexpRepo_twice demoHash 0 5 emptyRepo), exampleSetup_eq. Defined.

Lemma exampleSetup_branches : repo_branches exampleSetup ≠ ∅.
Proof.
  destruct exampleSetup_ok as [_ (_ & _ & tip & c & Hb & _)].
  intros Heq. by rewrite Heq, lookup_empty in Hb.
Qed.

Lemma setupGitSexpRepo_existing_witness :
  ∃ r', @setupGitSexpRepo demoHash 5 exampleSetup = Ok r'
        ∧ repo_objects r' = repo_objects exampleSetup
        ∧ repo_branches r' = repo_branches exampleSetup.
Proof.
  apply (@setupGitSexpRepo_existing demoHash 5 exampleSetup), exampleSetup_branches.
Defined.

Lemma runCall_keeps_reads_witness :
  readGitSexpExpression 3 (repo_objects examplePrepended) (oid_of exampleEncoded.1)
  = Some (Ok exampleEncoded.1).
Proof.
  apply (@runCall_keeps_reads demoHash (callPrepend (js "X") exampleEncoded.1)
           exampleRepo examplePrepended 3).
  - reflexivity.
  - vm_compute. reflexivity.
Defined.

Lemma runCall_store_ok_witness : @store_ok demoHash (repo_objects exampleRepo).
Proof.
  apply (@runCall_store_ok demoHash (callEncode exampleList) exampleSetup exampleRepo).
  - reflexivity.
  - apply exampleSetup_ok.
Defined.

Lemma readGitSexpExpression_commit_witness :
  readGitSexpExpression 3
    {[ "c1" := Commit {| commit_tree := GitSexpEmptyValue_oid; commit_parent := [];
                         commit_author := ("GitSexp", "git-sexp@localhost");
                         commit_timestamp := 0; commit_message := "Initial commit" |} ]}
    "c1"
  ≠ Some (Ok GitSexpEmpty).
Proof.
  apply (readGitSexpExpression_commit 3 _ "c1"
           {| commit_tree := GitSexpEmptyValue_oid; commit_parent := [];
              commit_author := ("GitSexp", "git-sexp@localhost");
              commit_timestamp := 0; commit_message := "Initial commit" |}).
  - discriminate.
  - reflexivity.
Defined.

(** ** What the reader does not look at, and how it fails *)

Lemma insertEntry_sameRef (e e' : TreeEntry) (l l' : list TreeEntry) :
  sameRef e e' → Forall2 sameRef l l' →
  Forall2 sameRef (insertEntry e l) (insertEntry e' l').
Proof.
  intros He Hl. induction Hl as [|x x' l l' Hx Hl IH]; simpl.
  - constructor; [done|constructor].
  - pose proof He as [Hp Ho]. pose proof Hx as [Hxp Hxo]. rewrite <- Hp, <- Hxp.
    destruct (String.leb (entry_path e) (entry_path x)).
    + constructor; [done|]. by constructor.
    + constructor; [done|]. apply IH.
Qed.

Lemma sortEntries_sameRef (l l' : list TreeEntry) :
  Forall2 sameRef l l' → Forall2 sameRef (sortEntries l) (sortEntries l').
Proof.
  induction 1 as [|x x' l l' Hx Hl IH]; simpl; [constructor|].
  by apply insertEntry_sameRef.
Qed.

Lemma consListing_sameRef (t t' : list TreeEntry) :
  Forall2 sameRef t t' → consListing t = consListing t'.
Proof.
  intros Ht. unfold consListing. rewrite (Forall2_length _ _ _ Ht).
  assert (∀ name, existsb (λ entry, String.eqb (entry_path entry) name) t
                  = existsb (λ entry, String.eqb (entry_path entry) name) t') as Hex.
  { intros name. induction Ht as [|x x' l l' [Hp _] _ IH]; simpl; [done|].
    by rewrite Hp, IH. }
  by rewrite !Hex.
Qed.

Lemma git_readTree_sameStore (fuel : nat) (objs1 objs2 : gmap Oid GitObject) (oid : Oid) :
  sameStore objs1 objs2 →
  match git_readTree fuel objs1 oid, git_readTree fuel objs2 oid with
  | Some (Ok t1), Some (Ok t2) => Forall2 sameRef t1 t2
  | Some (Throw e1), Some (Throw e2) => e1 = e2
  | None, None => True
  | _, _ => False
  end.
Proof.
  intros Hsame. revert oid. induction fuel as [|n IH]; intros oid; simpl; [done|].
  case_decide; [constructor|].
  destruct (Hsame oid) as [o1 o2 Ho|]; [|done].
  destruct o1 as [b1|es1|c1], o2 as [b2|es2|c2]; simpl in Ho; try done.
  - by apply sortEntries_sameRef.
  - subst. apply IH.
Qed.

Lemma sameStore_lookup (objs1 objs2 : gmap Oid GitObject) (oid : Oid) :
  sameStore objs1 objs2 →
  match objs1 !! oid, objs2 !! oid with
  | Some o1, Some o2 => sameObject o1 o2
  | None, None => True
  | _, _ => False
  end.
Proof. intros Hsame. by destruct (Hsame oid). Qed.

(** X26: the reader does not rely on the mode and type a tree entry
    declares: on two stores that differ only there it returns the same
    result, since it reads each child again by its id. *)
Theorem readGitSexpExpression_sameStore (fuel : nat) (objs1 objs2 : gmap Oid GitObject)
    (oid : Oid) :
  sameStore objs1 objs2 →
  readGitSexpExpression fuel objs1 oid = readGitSexpExpression fuel objs2 oid.
Proof.
  intros Hsame. revert oid. induction fuel as [|n IH]; intros oid; [done|].
  pose proof (sameStore_lookup objs1 objs2 oid Hsame) as Ho.
  destruct (read_case objs1 oid)
    as [He|Hne Hl|b Hne Hl|c Hne Hl|es Hne Hl Hv|es ce de Hne Hl Hs Hc Hd];
    [subst; by rewrite !read_empty|..];
    rewrite Hl in Ho; destruct (objs2 !! oid) as [[b2|es2|c2]|] eqn:Hl2;
    simpl in Ho; try done.
  - by rewrite (read_missing _ _ _ Hne Hl), (read_missing _ _ _ Hne Hl2).
  - subst. by rewrite (read_blob _ _ _ _ Hne Hl), (read_blob _ _ _ _ Hne Hl2).
  - subst. rewrite (read_commit _ _ _ _ Hne Hl), (read_commit _ _ _ _ Hne Hl2).
    pose proof (git_readTree_sameStore n objs1 objs2 oid Hsame) as Ht.
    destruct (git_readTree n objs1 oid) as [[t1|e1]|],
             (git_readTree n objs2 oid) as [[t2|e2]|]; simpl; try done. by subst.
  - rewrite (read_tree_invalid _ _ _ _ Hne Hl Hv).
    rewrite (read_tree_invalid _ _ _ _ Hne Hl2); [done|].
    by rewrite <- (consListing_sameRef _ _ (sortEntries_sameRef _ _ Ho)).
  - apply sortEntries_sameRef in Ho. rewrite Hs in Ho.
    destruct (sortEntries es2) as [|ce2 [|de2 [|x t]]] eqn:Hs2;
      try (by inversion Ho as [|???? _ Hrest]; inversion Hrest as [|???? _ Hnil];
              inversion Hnil).
    apply Forall2_cons_1 in Ho as [[Hcp Hco] Ho].
    apply Forall2_cons_1 in Ho as [[Hdp Hdo] _].
    rewrite (read_tree_cons _ _ _ _ _ _ Hne Hl Hs Hc Hd).
    rewrite (read_tree_cons _ _ _ es2 ce2 de2 Hne Hl2); [|done|congruence|congruence].
    by rewrite Hco, Hdo, !IH.
Qed.

(** X27: the reader fails fast and returns no partial pair: when the car
    of a stored pair names an id under which nothing is stored, reading
    the pair fails with [NotFound], whatever its cdr is. *)
Theorem readGitSexpExpression_dangling_car (fuel : nat) (objs : gmap Oid GitObject)
    (oid : Oid) (es : list TreeEntry) (ce de : TreeEntry) :
  oid ≠ GitSexpEmptyValue_oid → objs !! oid = Some (Tree es) →
  sortEntries es = [ce; de] → entry_path ce = "car" → entry_path de = "cdr" →
  entry_oid ce ≠ GitSexpEmptyValue_oid → objs !! entry_oid ce = None →
  readGitSexpExpression (S (S fuel)) objs oid = Some (Throw NotFound).
Proof.
  intros Hne Hl Hs Hc Hd Hce Hmissing.
  rewrite (read_tree_cons _ _ _ _ _ _ Hne Hl Hs Hc Hd).
  by rewrite (read_missing _ _ _ Hce Hmissing).
Qed.

Lemma readGitSexpExpression_sameStore_witness :
  readGitSexpExpression 2 exampleStore "t1"
  = readGitSexpExpression 2
      {[ "t1" := Tree [ {| entry_mode := "040000"; entry_path := "car";
                           entry_oid := "a1"; entry_type := tree |};
                        {| entry_mode := "100644"; entry_path := "cdr";
                           entry_oid := GitSexpEmptyValue_oid; entry_type := blob |} ];
         "a1" := Blob (Buffer_from (js "A")) ]}
      "t1".
Proof.
  apply readGitSexpExpression_sameStore. intros oid. unfold exampleStore.
  destruct (decide (oid = "t1")) as [->|Hn1].
  { rewrite !lookup_insert_eq. constructor. simpl. repeat constructor. }
  rewrite !(lookup_insert_ne _ "t1") by done.
  destruct (decide (oid = "a1")) as [->|Hn2].
  { rewrite !lookup_singleton_eq. by constructor. }
  rewrite !lookup_singleton_ne by done. constructor.
Defined.

Lemma readGitSexpExpression_dangling_car_witness :
  readGitSexpExpression 2
    {[ "t1" := Tree [ {| entry_mode := "100644"; entry_path := "car";
                         entry_oid := "gone"; entry_type := blob |};
                      {| entry_mode := "040000"; entry_path := "cdr";
                         entry_oid := GitSexpEmptyValue_oid; entry_type := tree |} ] ]}
    "t1"
  = Some (Throw NotFound).
Proof.
  eapply (readGitSexpExpression_dangling_car 0 _ "t1"); try reflexivity; discriminate.
Defined.

(** ** Strings that are not well formed *)

(** The bytes of a string, and the string of some bytes, on the cases the
    conversions are there for: ASCII text, a character outside the basic
    plane, an unpaired surrogate, and bytes that are not UTF-8. *)
Example Buffer_examples :
  Buffer_from (js "Hi") = [Byte.x48; Byte.x69]
  ∧ Buffer_from [0xD83D; 0xDE00]%N = [Byte.xf0; Byte.x9f; Byte.x98; Byte.x80]
  ∧ Buffer_toString [Byte.xf0; Byte.x9f; Byte.x98; Byte.x80] = [0xD83D; 0xDE00]%N
  ∧ Buffer_from [0xD800]%N = [Byte.xef; Byte.xbf; Byte.xbd]
  ∧ Buffer_toString [Byte.xef; Byte.xbf; Byte.xbd] = [0xFFFD]%N
  ∧ Buffer_toString [Byte.xff] = [0xFFFD]%N
  ∧ Buffer_toString [Byte.xf0; Byte.x9f; Byte.x98] = [0xFFFD]%N
  ∧ Buffer_toString [Byte.xed; Byte.xa0; Byte.x80] = [0xFFFD; 0xFFFD; 0xFFFD]%N
  ∧ Buffer_toString [Byte.xef; Byte.xbb; Byte.xbf; Byte.x41] = [0xFEFF; 0x41]%N.
Proof. repeat split. Qed.

(** X28: whatever bytes the store holds, the strings of an expression the
    reader returns are well formed: decoding replaces every ill-formed
    byte sequence, so no unpaired surrogate is ever read. *)
Theorem readGitSexpExpression_well_formed (fuel : nat) (objs : gmap Oid GitObject)
    (oid : Oid) (sexp : GitSexpExpression) :
  readGitSexpExpression fuel objs oid = Some (Ok sexp) →
  isWellFormedSexp (gitSexpToJsSexp sexp) = true.
Proof. apply readGitSexpExpression_isWellFormed. Qed.

Lemma readGitSexpExpression_well_formed_witness :
  isWellFormedSexp (gitSexpToJsSexp (GitSexpAtom [0xFFFD%N] "a1")) = true.
Proof.
  apply (readGitSexpExpression_well_formed 1 {[ "a1" := Blob [Byte.xff] ]} "a1").
  reflexivity.
Defined.

(** X29: the encoder does not tell a value from the value with its
    unpaired surrogates replaced by U+FFFD: it writes the same objects
    under the same ids for both, and the expressions it returns differ in
    the strings they carry only. *)
Theorem jsSexpToGitSexp_same_objects `{Hasher} (v : JsSexp) (objs : gmap Oid GitObject) :
  jsSexpToGitSexp (toWellFormedSexp v) objs
  = (toWellFormedExpression (jsSexpToGitSexp v objs).1, (jsSexpToGitSexp v objs).2).
Proof.
  revert objs. induction v as [| s | v0 IH0 v1 IH1]; intros objs.
  - done.
  - cbn [toWellFormedSexp jsSexpToGitSexp]. rewrite !writeGitSexpAtom_eq.
    cbn [fst snd toWellFormedExpression]. by rewrite Buffer_from_toWellFormed.
  - cbn [toWellFormedSexp jsSexpToGitSexp]. rewrite IH0.
    destruct (jsSexpToGitSexp v0 objs) as [car objs1]. cbn [fst snd]. rewrite IH1.
    destruct (jsSexpToGitSexp v1 objs1) as [cdr objs2]. cbn [fst snd].
    rewrite !writeGitSexpCons_eq. cbn [fst snd toWellFormedExpression].
    by rewrite consTree_toWellFormedExpression.
Qed.

(** ** A record whose snapshot is absent *)

(** X30: the id of a commit whose tree is absent from the store is refused
    with the store's [NotFound]: [git.readTree] peels the commit and fails
    on the tree before the shape test is reached. *)
Theorem readGitSexpExpression_commit_absent_tree (fuel : nat)
    (objs : gmap Oid GitObject) (oid : Oid) (c : CommitObject) :
  oid ≠ GitSexpEmptyValue_oid → objs !! oid = Some (Commit c) →
  commit_tree c ≠ GitSexpEmptyValue_oid → objs !! commit_tree c = None →
  readGitSexpExpression (S (S (S fuel))) objs oid = Some (Throw NotFound).
Proof.
  intros Hne Hl Ht Hnone. rewrite (read_commit _ _ _ c Hne Hl).
  cbn [git_readTree]. rewrite decide_False, Hl by done.
  cbn [git_readTree]. by rewrite decide_False, Hnone by done.
Qed.

Lemma readGitSexpExpression_commit_absent_tree_witness :
  readGitSexpExpression 3
    {[ "c1" := Commit {| commit_tree := "absent"; commit_parent := [];
                         commit_author := ("GitSexp", "git-sexp@localhost");
                         commit_timestamp := 0; commit_message := "Append messages" |} ]}
    "c1"
  = Some (Throw NotFound).
Proof.
  apply (readGitSexpExpression_commit_absent_tree 0 _ "c1"
           {| commit_tree := "absent"; commit_parent := [];
              commit_author := ("GitSexp", "git-sexp@localhost");
              commit_timestamp := 0; commit_message := "Append messages" |});
    [discriminate|reflexivity|discriminate|reflexivity].
Defined.

